(** * prod_db_changer: the DatabaseSynchronizer of main.py

    A shallow embedding of the diff-and-reconcile logic of
    [DatabaseSynchronizer] (src/main.py) and the properties the
    specification states about it.

    Python values are modelled by [value]; a [dict] is an association list
    in insertion order whose keys are pairwise distinct ([wf_dict]); the
    database connection is modelled by the statements handed to
    [cursor.execute] together with their effect on the catalog or on the
    rows of the table. *)

From Stdlib Require Import List String Ascii ZArith Bool Lia.
Import ListNotations.
Open Scope string_scope.
Open Scope list_scope.

Set Implicit Arguments.

(** ** Python values and dictionaries *)

(** The values a row of psycopg2 holds in this development: [None],
    booleans, integers and strings. *)
Inductive value : Type :=
| VNone
| VBool (b : bool)
| VInt (z : Z)
| VStr (s : string).

(** [bool] is a subclass of [int] in Python: [True == 1] and [False == 0]. *)
Definition as_int (v : value) : option Z :=
  match v with
  | VBool true => Some 1%Z
  | VBool false => Some 0%Z
  | VInt z => Some z
  | _ => None
  end.

(** Python's [a == b]; it is also the equality dict keys and set members
    are looked up with (equal values have equal hashes). *)
Definition py_eq (a b : value) : bool :=
  match as_int a, as_int b with
  | Some x, Some y => Z.eqb x y
  | None, None =>
      match a, b with
      | VNone, VNone => true
      | VStr s, VStr t => String.eqb s t
      | _, _ => false
      end
  | _, _ => false
  end.

(** Python's [a != b]. *)
Definition py_ne (a b : value) : bool := negb (py_eq a b).

Section Dict.
Variable V : Type.

(** A dict with string keys, in insertion order. *)
Definition dict : Type := list (string * V).

Definition keys (d : dict) : list string := map fst d.
Definition values (d : dict) : list V := map snd d.
Definition items (d : dict) : list (string * V) := d.

(** [d.get(k)] without default; [Some] exactly when [k in d]. *)
Fixpoint dict_get (d : dict) (k : string) : option V :=
  match d with
  | [] => None
  | (k', v) :: d' => if String.eqb k' k then Some v else dict_get d' k
  end.

(** [k in d]. *)
Definition contains (d : dict) (k : string) : bool :=
  match dict_get d k with Some _ => true | None => false end.

(** [d[k] = v]: an existing key keeps its position, a new one is appended. *)
Fixpoint dict_set (d : dict) (k : string) (v : V) : dict :=
  match d with
  | [] => [(k, v)]
  | (k', v') :: d' =>
      if String.eqb k' k then (k', v) :: d' else (k', v') :: dict_set d' k v
  end.

(** The keys of a Python dict are pairwise distinct. *)
Definition wf_dict (d : dict) : Prop := NoDup (keys d).
End Dict.

(** A row of a table: column name to value. *)
Definition record : Type := dict value.

(** [r.get('id')]: the identity value, [None] when the field is missing. *)
Definition get_id (r : record) : value :=
  match dict_get r "id" with
  | Some v => v
  | None => VNone
  end.

(** ** Sets and dicts keyed by Python values *)

(** A set of values; only membership is used. *)
Definition value_set : Type := list value.

(** [x in s]. *)
Definition set_mem (x : value) (s : value_set) : bool :=
  existsb (fun e => py_eq e x) s.

(** A dict keyed by values, holding records. *)
Definition id_dict : Type := list (value * record).

Fixpoint id_dict_get (d : id_dict) (k : value) : option record :=
  match d with
  | [] => None
  | (k', r) :: d' => if py_eq k' k then Some r else id_dict_get d' k
  end.

Fixpoint id_dict_set (d : id_dict) (k : value) (r : record) : id_dict :=
  match d with
  | [] => [(k, r)]
  | (k', r') :: d' =>
      if py_eq k' k then (k', r) :: d' else (k', r') :: id_dict_set d' k r
  end.

(** ** The Record Differ *)

(** [{rec['id'] for rec in prod_records if 'id' in rec}] *)
Fixpoint prod_ids (prod_records : list record) : value_set :=
  match prod_records with
  | [] => []
  | rec :: rest =>
      match dict_get rec "id" with
      | Some i => i :: prod_ids rest
      | None => prod_ids rest
      end
  end.

(** The loop of [calculate_inserts] over [test_records]. *)
Fixpoint inserts_loop (ids : value_set) (test_records : list record)
  : list record :=
  match test_records with
  | [] => []
  | r :: rest =>
      if negb (set_mem (get_id r) ids)
      then r :: inserts_loop ids rest
      else inserts_loop ids rest
  end.

Definition calculate_inserts (test_records prod_records : list record)
  : list record :=
  inserts_loop (prod_ids prod_records) test_records.

(** [{rec['id']: rec for rec in prod_records if 'id' in rec}]: a later
    record with an equal identity replaces the earlier one. *)
Definition prod_dict_step (d : id_dict) (rec : record) : id_dict :=
  match dict_get rec "id" with
  | Some i => id_dict_set d i rec
  | None => d
  end.

Definition prod_dict (prod_records : list record) : id_dict :=
  fold_left prod_dict_step prod_records [].

(** The inner loop of [calculate_updates] over [test_rec.items()]: the
    value of [different_fields] when the loop ends or breaks. *)
Fixpoint different_fields (its : list (string * value)) (prod_rec : record)
  : bool :=
  match its with
  | [] => false
  | (k, v) :: rest =>
      if String.eqb k "id" then different_fields rest prod_rec
      else
        match dict_get prod_rec k with
        | Some pv => if py_ne pv v then true else different_fields rest prod_rec
        | None => different_fields rest prod_rec
        end
  end.

(** The loop of [calculate_updates] over [test_records]. *)
Fixpoint updates_loop (pd : id_dict) (test_records : list record)
  : list record :=
  match test_records with
  | [] => []
  | test_rec :: rest =>
      match id_dict_get pd (get_id test_rec) with
      | Some prod_rec =>
          if different_fields (items test_rec) prod_rec
          then test_rec :: updates_loop pd rest
          else updates_loop pd rest
      | None => updates_loop pd rest
      end
  end.

Definition calculate_updates (test_records prod_records : list record)
  : list record :=
  updates_loop (prod_dict prod_records) test_records.

(** ** Statements handed to the cursor *)

(** The statements the synchronizer builds. Each carries the pieces its
    f-string interpolates; [query] is the text and [bound] the parameter
    list passed to [cursor.execute]. *)
Inductive statement : Type :=
| CreateTable (table_name : string)
| AddColumn (table_name column_name column_type : string)
| AlterColumnType (table_name column_name column_type : string)
| InsertInto (table_name : string) (columns : list string)
             (vals : list value)
| UpdateById (table_name : string) (set_columns : list string)
             (vals : list value) (record_id : value).

(** A call on the connection: [cursor.execute(...)] or [conn.commit()]. *)
Inductive call : Type :=
| Execute (s : statement)
| Commit.

(** [str.upper()] on ASCII text (catalog type tags are ASCII). *)
Definition upper_ascii (c : ascii) : ascii :=
  let n := nat_of_ascii c in
  if (97 <=? n)%nat && (n <=? 122)%nat then ascii_of_nat (n - 32) else c.

Fixpoint upper (s : string) : string :=
  match s with
  | EmptyString => EmptyString
  | String c s' => String (upper_ascii c) (upper s')
  end.

Definition _map_type_to_postgres (data_type : string) : string :=
  if String.eqb data_type "character varying" then "VARCHAR(255)"
  else if String.eqb data_type "integer" then "INTEGER"
  else if String.eqb data_type "boolean" then "BOOLEAN"
  else upper data_type.

Definition _get_create_table_ddl (table_name : string) : string :=
  ("CREATE TABLE " ++ table_name
    ++ " (id SERIAL PRIMARY KEY, dummy_field VARCHAR(100));")%string.

(** [', '.join(parts)] *)
Definition join (sep : string) (parts : list string) : string :=
  String.concat sep parts.

(** [f"{k} = %s"] *)
Definition set_clause_part (k : string) : string := (k ++ " = %s")%string.

Definition query (s : statement) : string :=
  match s with
  | CreateTable table_name => _get_create_table_ddl table_name
  | AddColumn table_name column_name column_type =>
      ("ALTER TABLE " ++ table_name ++ " ADD COLUMN " ++ column_name ++ " "
        ++ _map_type_to_postgres column_type ++ ";")%string
  | AlterColumnType table_name column_name column_type =>
      ("ALTER TABLE " ++ table_name ++ " ALTER COLUMN " ++ column_name
        ++ " TYPE " ++ _map_type_to_postgres column_type ++ ";")%string
  | InsertInto table_name columns vals =>
      ("INSERT INTO " ++ table_name ++ " (" ++ join ", " columns
        ++ ") VALUES (" ++ join ", " (repeat "%s" (List.length vals)) ++ ")")%string
  | UpdateById table_name set_columns _ _ =>
      ("UPDATE " ++ table_name ++ " SET "
        ++ join ", " (map set_clause_part set_columns) ++ " WHERE id = %s")%string
  end.

Definition bound (s : statement) : list value :=
  match s with
  | InsertInto _ _ vals => vals
  | UpdateById _ _ vals record_id => vals ++ [record_id]
  | _ => []
  end.

(** What a mocked cursor records: the arguments of each [execute], and
    [None] for a commit. *)
Definition call_args (c : call) : option (string * list value) :=
  match c with
  | Execute s => Some (query s, bound s)
  | Commit => None
  end.

(** ** The Upsert Executor *)

Definition insert_call (table_name : string) (rec : record) : call :=
  Execute (InsertInto table_name (keys rec) (values rec)).

Definition insert_records (table_name : string) (records : list record)
  : list call :=
  match records with
  | [] => []
  | _ => map (insert_call table_name) records ++ [Commit]
  end.

(** The items of a record the SET clause is built from: the inner loop of
    [update_records], which skips the key ['id']. *)
Fixpoint set_items (its : list (string * value)) : list (string * value) :=
  match its with
  | [] => []
  | (k, v) :: rest =>
      if String.eqb k "id" then set_items rest else (k, v) :: set_items rest
  end.

(** One iteration of the loop of [update_records]. *)
Definition update_call (table_name : string) (rec : record) : list call :=
  match dict_get rec "id" with
  | None => []
  | Some record_id =>
      match set_items (items rec) with
      | [] => []
      | sets =>
          [Execute (UpdateById table_name (keys sets) (values sets) record_id)]
      end
  end.

Fixpoint update_loop (table_name : string) (records : list record)
  : list call :=
  match records with
  | [] => []
  | rec :: rest => update_call table_name rec ++ update_loop table_name rest
  end.

Definition update_records (table_name : string) (records : list record)
  : list call :=
  match records with
  | [] => []
  | _ => update_loop table_name records ++ [Commit]
  end.

(** The body of the loop of [sync_reference_tables] (and of [sync_data])
    once both record sets are loaded. *)
Definition sync_table (table_name : string)
    (test_records prod_records : list record) : list call :=
  insert_records table_name (calculate_inserts test_records prod_records)
  ++ update_records table_name (calculate_updates test_records prod_records).

(** ** The row store

    The effect of the executed statements on the rows of the table they
    name. An INSERT appends the row made of the named columns; an UPDATE
    assigns the SET columns on every row whose [id] equals the bound
    identity; SQL's [=] is never true on NULL. Constraint violations are
    outside the model. A row holds the named columns only (the columns a
    real table fills with NULL or a default are not in it) and the rows are
    kept in the order of insertion: the properties stated over this store
    speak of the rows the target already had and of the fields of the
    source records. *)

Definition sql_eq (a b : value) : bool :=
  match a, b with
  | VNone, _ => false
  | _, VNone => false
  | _, _ => py_eq a b
  end.

Definition assign (row : record) (sets : list (string * value)) : record :=
  fold_left (fun d kv => dict_set d (fst kv) (snd kv)) sets row.

Definition update_row (sets : list (string * value)) (record_id : value)
    (row : record) : record :=
  match dict_get row "id" with
  | Some i => if sql_eq i record_id then assign row sets else row
  | None => row
  end.

Definition exec_dml (s : statement) (rows : list record) : list record :=
  match s with
  | InsertInto _ columns vals => rows ++ [combine columns vals]
  | UpdateById _ set_columns vals record_id =>
      map (update_row (combine set_columns vals) record_id) rows
  | _ => rows
  end.

Definition run_dml (calls : list call) (rows : list record) : list record :=
  fold_left (fun rs c => match c with Execute s => exec_dml s rs | Commit => rs end)
            calls rows.

(** The target rows after the reconciliation plan has been applied. *)
Definition reconcile (table_name : string)
    (test_records prod_records : list record) : list record :=
  run_dml (sync_table table_name test_records prod_records) prod_records.

(** ** Schema synchronization *)

(** [{column_name: column_type}] of one table, in ordinal position. *)
Definition table_columns : Type := dict string.

(** The catalog of a connection: the base tables of the public schema. *)
Definition schema : Type := list (string * table_columns).

Definition _get_tables (conn : schema) : list string := map fst conn.

Definition _get_table_columns (conn : schema) (table_name : string)
  : table_columns :=
  match dict_get conn table_name with
  | Some cols => cols
  | None => []
  end.

(** [t in tables] on a list of names. *)
Definition mem (t : string) (tables : list string) : bool :=
  existsb (String.eqb t) tables.

Definition _add_column (table_name column_name column_type : string)
  : list call :=
  [Execute (AddColumn table_name column_name column_type); Commit].

Definition _alter_column_type (table_name column_name column_type : string)
  : list call :=
  [Execute (AlterColumnType table_name column_name column_type); Commit].

(** The loop of [_sync_table_structure] over [test_columns.items()]. *)
Fixpoint structure_loop (table_name : string) (prod_columns : table_columns)
    (test_items : list (string * string)) : list call :=
  match test_items with
  | [] => []
  | (col_name, col_type) :: rest =>
      match dict_get prod_columns col_name with
      | None =>
          _add_column table_name col_name col_type
          ++ structure_loop table_name prod_columns rest
      | Some prod_type =>
          if negb (String.eqb col_type prod_type)
          then _alter_column_type table_name col_name col_type
               ++ structure_loop table_name prod_columns rest
          else structure_loop table_name prod_columns rest
      end
  end.

Definition _sync_table_structure (test_conn prod_conn : schema)
    (table_name : string) : list call :=
  let test_columns := _get_table_columns test_conn table_name in
  let prod_columns := _get_table_columns prod_conn table_name in
  structure_loop table_name prod_columns (items test_columns).

(** The catalog after a DDL statement, as [information_schema] reports it:
    the table of [_get_create_table_ddl] has the columns [id] (integer) and
    [dummy_field] (character varying); an added or retyped column is
    reported with the type tag it was requested with. *)
Definition created_columns : table_columns :=
  [("id", "integer"); ("dummy_field", "character varying")].

Definition on_table (table_name : string) (f : table_columns -> table_columns)
    (conn : schema) : schema :=
  map (fun tc => if String.eqb (fst tc) table_name
                 then (fst tc, f (snd tc)) else tc) conn.

Definition with_column (column_name column_type : string)
    (cols : table_columns) : table_columns :=
  if contains cols column_name then cols
  else cols ++ [(column_name, column_type)].

Definition with_type (column_name column_type : string)
    (cols : table_columns) : table_columns :=
  if contains cols column_name then dict_set cols column_name column_type
  else cols.

Definition exec_ddl (s : statement) (conn : schema) : schema :=
  match s with
  | CreateTable table_name =>
      if mem table_name (_get_tables conn) then conn
      else conn ++ [(table_name, created_columns)]
  | AddColumn table_name column_name column_type =>
      on_table table_name (with_column column_name column_type) conn
  | AlterColumnType table_name column_name column_type =>
      on_table table_name (with_type column_name column_type) conn
  | _ => conn
  end.

Definition run_ddl (calls : list call) (conn : schema) : schema :=
  fold_left (fun cn c => match c with Execute s => exec_ddl s cn | Commit => cn end)
            calls conn.

(** The second loop of [sync_schema]: each table reads the live catalog of
    the prod connection. *)
Fixpoint common_loop (test_conn prod_conn : schema) (tables : list string)
  : list call :=
  match tables with
  | [] => []
  | table_name :: rest =>
      let calls := _sync_table_structure test_conn prod_conn table_name in
      calls ++ common_loop test_conn (run_ddl calls prod_conn) rest
  end.

Definition create_calls (missing_tables : list string) : list call :=
  flat_map (fun table_name => [Execute (CreateTable table_name); Commit])
           missing_tables.

Definition sync_schema (test_conn prod_conn : schema) : list call :=
  let test_tables := _get_tables test_conn in
  let prod_tables := _get_tables prod_conn in
  let missing_tables :=
    filter (fun t => negb (mem t prod_tables)) test_tables in
  let created := create_calls missing_tables in
  let common_tables := filter (fun t => mem t prod_tables) test_tables in
  created ++ common_loop test_conn (run_ddl created prod_conn) common_tables.

(** The statements of a run, without the commits. *)
Fixpoint statements (calls : list call) : list statement :=
  match calls with
  | [] => []
  | Execute s :: rest => s :: statements rest
  | Commit :: rest => statements rest
  end.

(** Scenario B of the specification (test_sync_reference_tables). *)
Definition scenario_b_test : list record :=
  [ [("id", VInt 1); ("name", VStr "TestName1")];
    [("id", VInt 2); ("name", VStr "TestName2")] ].

Definition scenario_b_prod : list record :=
  [ [("id", VInt 1); ("name", VStr "OldName")] ].

(** Scenario D of the specification (test_update_records). *)
Definition scenario_d_records : list record :=
  [ [("id", VInt 10); ("name", VStr "UpdatedName10");
     ("desc", VStr "NewDesc10")];
    [("id", VInt 20); ("name", VStr "UpdatedName20")] ].

(** Scenario A of the specification: the source has the tables orders and
    users, the target has users only. *)
Definition scenario_a_test : schema :=
  [ ("orders", [("id", "integer"); ("total", "numeric")]);
    ("users", [("id", "integer"); ("email", "character varying")]) ].

Definition scenario_a_prod : schema :=
  [ ("users", [("id", "integer"); ("email", "character varying")]) ].

(** ** Properties the specification names *)

(** The record carries the identity field with a value equal to [k]. *)
Definition has_identity (t : record) (k : value) : Prop :=
  exists i, dict_get t "id" = Some i /\ py_eq i k = true.

(** Every field of [r] is a field of [t] with an equal value. *)
Definition agrees (r t : record) : Prop :=
  forall f v, dict_get r f = Some v ->
    exists tv, dict_get t f = Some tv /\ py_eq tv v = true.

(** Convergence of the rows on the source record [r] of identity [k]. *)
Definition converged (r : record) (k : value) (rows : list record) : Prop :=
  (exists t, In t rows /\ has_identity t k)
  /\ (forall t, In t rows -> has_identity t k -> agrees r t).

(** The identity values of a record set are pairwise different (records
    without the identity field are not constrained). *)
Fixpoint unique_ids (rs : list record) : Prop :=
  match rs with
  | [] => True
  | r :: rest =>
      (forall i, dict_get r "id" = Some i ->
         forall t, In t rest -> ~ has_identity t i)
      /\ unique_ids rest
  end.

(** The target index of the Record Differ, in the words of the
    specification: the record matched for the identity value [k] is the
    last target record that carries an identity equal to [k]. *)
Definition carries_id (k : value) (t : record) : bool :=
  match dict_get t "id" with
  | Some i => py_eq i k
  | None => false
  end.

Definition matched (prod_records : list record) (k : value) : option record :=
  find (carries_id k) (rev prod_records).

(** Some non-identity field of [r] is also a field of [t], with a
    different value. *)
Definition differs_from (r t : record) : Prop :=
  exists k v pv,
    In (k, v) (items r) /\ k <> "id"
    /\ dict_get t k = Some pv /\ py_ne pv v = true.

(** The reading of invariant 1 of the data model: a source record without
    the identity field is in neither set of the plan. *)
Definition excludes_records_without_id
    (test_records prod_records : list record) : Prop :=
  forall r, In r test_records -> dict_get r "id" = None ->
    ~ In r (calculate_inserts test_records prod_records)
    /\ ~ In r (calculate_updates test_records prod_records).

(** The update path in the words of the specification: one UPDATE for each
    record that has the identity field, over its non-identity fields, the
    identity bound last; one commit after the batch. *)
Definition non_id (k : string) : bool := negb (String.eqb k "id").

Definition update_args (table_name : string) (rec : record)
  : option (string * list value) :=
  let fields := filter (fun kv => non_id (fst kv)) (items rec) in
  Some (("UPDATE " ++ table_name ++ " SET "
           ++ join ", " (map (fun kv => fst kv ++ " = %s") fields)
           ++ " WHERE id = %s")%string,
        map snd fields ++ [get_id rec]).

Definition updates_as_specified (table_name : string) (records : list record)
  : list (option (string * list value)) :=
  map (update_args table_name) (filter (fun rec => contains rec "id") records)
  ++ [None].

(** The records [update_records] issues a statement for. *)
Definition updatable (rec : record) : bool :=
  contains rec "id" && existsb non_id (keys rec).

(** The three DDL texts of the schema path. *)
Definition additive_ddl (q : string) : Prop :=
  (exists t, q = ("CREATE TABLE " ++ t
      ++ " (id SERIAL PRIMARY KEY, dummy_field VARCHAR(100));")%string)
  \/ (exists t c ty, q = ("ALTER TABLE " ++ t ++ " ADD COLUMN " ++ c ++ " "
      ++ _map_type_to_postgres ty ++ ";")%string)
  \/ (exists t c ty, q = ("ALTER TABLE " ++ t ++ " ALTER COLUMN " ++ c
      ++ " TYPE " ++ _map_type_to_postgres ty ++ ";")%string).

(** The two DML texts of the reconciliation path. *)
Definition upsert_dml (q : string) : Prop :=
  (exists rest, q = ("INSERT INTO " ++ rest)%string)
  \/ (exists rest, q = ("UPDATE " ++ rest)%string).

(** A target record whose identity no source record carries. *)
Definition target_only (test_records : list record) (t : record) : Prop :=
  exists k, dict_get t "id" = Some k
    /\ forall r, In r test_records -> ~ has_identity r k.

(** The test of the loop of [calculate_updates] on one source record. *)
Definition needs_update (pd : id_dict) (test_rec : record) : bool :=
  match id_dict_get pd (get_id test_rec) with
  | Some prod_rec => different_fields (items test_rec) prod_rec
  | None => false
  end.

(** The effect of one iteration of the loop of [update_records] on one row of
    the table, and of the whole loop. *)
Definition touch (rec row : record) : record :=
  match dict_get rec "id" with
  | None => row
  | Some record_id =>
      match set_items (items rec) with
      | [] => row
      | sets => update_row sets record_id row
      end
  end.

Definition apply_updates (records : list record) (row : record) : record :=
  fold_left (fun rw rec => touch rec rw) records row.

(** The statements of the schema path. *)
Definition is_ddl (s : statement) : Prop :=
  match s with
  | CreateTable _ | AddColumn _ _ _ | AlterColumnType _ _ _ => True
  | _ => False
  end.

(** The statements of the reconciliation path. *)
Definition is_upsert (s : statement) : Prop :=
  match s with
  | InsertInto _ _ _ | UpdateById _ _ _ _ => True
  | _ => False
  end.

(** No target record carries the identity value [None]. *)
Definition no_null_identity (prod_records : list record) : Prop :=
  forall t, In t prod_records -> dict_get t "id" <> Some VNone.

(** The table [table_name] of the prod catalog has every column of the test
    catalog's table, with the same type tag. *)
Definition synced (test_conn conn : schema) (table_name : string) : Prop :=
  forall c ty, In (c, ty) (_get_table_columns test_conn table_name) ->
    dict_get (_get_table_columns conn table_name) c = Some ty.

(** The tables of the catalog are dicts of columns. *)
Definition wf_schema (conn : schema) : Prop :=
  forall t cols, In (t, cols) conn -> wf_dict cols.

(** No table of the test catalog is missing from the prod catalog. *)
Definition no_missing_table (test_conn prod_conn : schema) : Prop :=
  forall t, In t (_get_tables test_conn) ->
    mem t (_get_tables prod_conn) = true.

(** ** The Record Loader *)

(** [dict(pairs)]: a later pair replaces the value of an earlier pair with
    the same key, which keeps its position. *)
Definition dict_of (V : Type) (pairs : list (string * V)) : dict V :=
  fold_left (fun d kv => dict_set d (fst kv) (snd kv)) pairs [].

(** [load_reference_data]: [description] holds the column names of
    [cursor.description] and [fetched] the tuples of [cursor.fetchall()];
    [zip] stops at the shorter of its two arguments, as [combine] does. *)
Definition load_reference_data (description : list string)
    (fetched : list (list value)) : list record :=
  map (fun row => dict_of (combine description row)) fetched.

(** Record sets the reconciliation is meant for: identities pairwise
    different on each side; every source record a dict with a non-null
    identity; a target record of the same identity has its fields. *)
Definition reconcilable (test_records prod_records : list record) : Prop :=
  unique_ids test_records /\ unique_ids prod_records
  /\ forall r, In r test_records ->
       wf_dict r
       /\ (exists k, dict_get r "id" = Some k /\ k <> VNone)
       /\ (forall t, In t prod_records -> has_identity t (get_id r) ->
             forall f, contains r f = true -> contains t f = true).

(** ** Python equality *)

Lemma py_eq_refl (a : value) : py_eq a a = true.
Proof.
  destruct a as [ | [ | ] | z | s ]; unfold py_eq; simpl; auto.
  - apply Z.eqb_refl.
  - apply String.eqb_refl.
Qed.

Lemma py_eq_sym (a b : value) : py_eq a b = py_eq b a.
Proof.
  unfold py_eq.
  destruct (as_int a) eqn:Ha, (as_int b) eqn:Hb; auto.
  - apply Z.eqb_sym.
  - destruct a, b; auto. apply String.eqb_sym.
Qed.

Lemma py_eq_trans (a b c : value) :
  py_eq a b = true -> py_eq b c = true -> py_eq a c = true.
Proof.
  unfold py_eq.
  destruct (as_int a) eqn:Ha, (as_int b) eqn:Hb, (as_int c) eqn:Hc;
    try discriminate.
  - rewrite !Z.eqb_eq. congruence.
  - destruct a, b, c; try discriminate; auto.
    rewrite !String.eqb_eq. congruence.
Qed.

(** Equal keys are interchangeable in a lookup. *)
Lemma py_eq_compat (a b c : value) :
  py_eq a b = true -> py_eq a c = py_eq b c.
Proof.
  intros Hab.
  destruct (py_eq b c) eqn:Hbc.
  - eapply py_eq_trans; eauto.
  - destruct (py_eq a c) eqn:Hac; auto.
    rewrite py_eq_sym in Hab.
    rewrite <- Hbc. symmetry. eapply py_eq_trans; eauto.
Qed.

Lemma py_eq_none_l (a : value) : py_eq VNone a = true -> a = VNone.
Proof. destruct a as [ | [ | ] | z | s ]; unfold py_eq; simpl; congruence. Qed.

Lemma sql_eq_py_eq (a b : value) : sql_eq a b = true -> py_eq a b = true.
Proof. destruct a, b; simpl; auto; discriminate. Qed.

Lemma sql_eq_intro (a b : value) :
  a <> VNone -> b <> VNone -> sql_eq a b = py_eq a b.
Proof. destruct a, b; simpl; auto; congruence. Qed.

(** ** The Record Differ: both loops are filters of the source *)

Lemma inserts_loop_filter (ids : value_set) (test_records : list record) :
  inserts_loop ids test_records
  = filter (fun r => negb (set_mem (get_id r) ids)) test_records.
Proof.
  induction test_records as [ | r rest IH]; simpl; auto.
  rewrite IH. reflexivity.
Qed.

Lemma updates_loop_filter (pd : id_dict) (test_records : list record) :
  updates_loop pd test_records = filter (needs_update pd) test_records.
Proof.
  induction test_records as [ | r rest IH]; simpl; auto.
  unfold needs_update at 1.
  destruct (id_dict_get pd (get_id r)) as [t | ]; auto.
  destruct (different_fields (items r) t); rewrite IH; reflexivity.
Qed.

Lemma set_mem_prod_ids (k : value) (prod_records : list record) :
  set_mem k (prod_ids prod_records) = existsb (carries_id k) prod_records.
Proof.
  induction prod_records as [ | t rest IH]; simpl; auto.
  unfold carries_id at 1.
  destruct (dict_get t "id") as [i | ]; simpl; rewrite <- IH; reflexivity.
Qed.

Lemma carries_id_has_identity (k : value) (t : record) :
  carries_id k t = true <-> has_identity t k.
Proof.
  unfold carries_id, has_identity. split.
  - destruct (dict_get t "id") as [i | ]; [ | discriminate].
    intros H. exists i. auto.
  - intros (i & Hi & Hk). rewrite Hi. exact Hk.
Qed.

Lemma carries_id_compat (a b : value) (t : record) :
  py_eq a b = true -> carries_id a t = carries_id b t.
Proof.
  intros Hab. unfold carries_id.
  destruct (dict_get t "id") as [i | ]; auto.
  rewrite (py_eq_sym i a), (py_eq_sym i b). apply py_eq_compat. exact Hab.
Qed.

(** ** The target index *)

Lemma find_append (A : Type) (f : A -> bool) (l1 l2 : list A) :
  find f (l1 ++ l2)
  = match find f l1 with Some x => Some x | None => find f l2 end.
Proof.
  induction l1 as [ | x l1 IH]; simpl; auto.
  destruct (f x); auto.
Qed.

Lemma id_dict_get_set (d : id_dict) (k k' : value) (r : record) :
  id_dict_get (id_dict_set d k r) k'
  = if py_eq k k' then Some r else id_dict_get d k'.
Proof.
  induction d as [ | [k0 r0] d IH]; simpl.
  - reflexivity.
  - destruct (py_eq k0 k) eqn:H0; simpl.
    + rewrite (py_eq_compat _ _ k' H0). destruct (py_eq k k'); reflexivity.
    + rewrite IH. destruct (py_eq k0 k') eqn:H1; auto.
      destruct (py_eq k k') eqn:H2; auto.
      assert (py_eq k0 k = true).
      { eapply py_eq_trans; eauto. rewrite py_eq_sym. exact H2. }
      congruence.
Qed.

Lemma prod_dict_fold (prod_records : list record) (d : id_dict) (k : value) :
  id_dict_get (fold_left prod_dict_step prod_records d) k
  = match matched prod_records k with
    | Some t => Some t
    | None => id_dict_get d k
    end.
Proof.
  unfold matched.
  revert d. induction prod_records as [ | t rest IH]; intros d; simpl.
  - reflexivity.
  - rewrite IH. rewrite find_append.
    destruct (find (carries_id k) (rev rest)) as [t' | ]; auto.
    simpl. unfold prod_dict_step, carries_id.
    destruct (dict_get t "id") as [i | ]; auto.
    rewrite id_dict_get_set. destruct (py_eq i k); reflexivity.
Qed.

(** The dict comprehension of [calculate_updates] is the target index. *)
Lemma prod_dict_matched (prod_records : list record) (k : value) :
  id_dict_get (prod_dict prod_records) k = matched prod_records k.
Proof.
  unfold prod_dict. rewrite prod_dict_fold.
  destruct (matched prod_records k); reflexivity.
Qed.

Lemma matched_some (prod_records : list record) (k : value) (t : record) :
  matched prod_records k = Some t -> In t prod_records /\ has_identity t k.
Proof.
  unfold matched. intros H. apply find_some in H. destruct H as [Hin Hc].
  split.
  - apply in_rev. exact Hin.
  - apply carries_id_has_identity. exact Hc.
Qed.

Lemma matched_none (prod_records : list record) (k : value) :
  matched prod_records k = None <->
  forall t, In t prod_records -> ~ has_identity t k.
Proof.
  unfold matched. split.
  - intros H t Hin Hid.
    apply carries_id_has_identity in Hid.
    pose proof (find_none _ _ H t) as Hn.
    rewrite <- in_rev in Hn. rewrite (Hn Hin) in Hid. discriminate.
  - intros H. destruct (find (carries_id k) (rev prod_records)) as [t | ] eqn:E;
      auto.
    apply find_some in E. destruct E as [Hin Hc].
    exfalso. apply (H t).
    + apply in_rev. exact Hin.
    + apply carries_id_has_identity. exact Hc.
Qed.

Lemma existsb_carries_matched (prod_records : list record) (k : value) :
  existsb (carries_id k) prod_records = true <->
  exists t, matched prod_records k = Some t.
Proof.
  split.
  - intros H. destruct (matched prod_records k) as [t | ] eqn:E; eauto.
    exfalso. rewrite matched_none in E.
    apply existsb_exists in H. destruct H as (t & Hin & Hc).
    apply (E t Hin). apply carries_id_has_identity. exact Hc.
  - intros (t & Ht). apply matched_some in Ht. destruct Ht as [Hin Hid].
    apply existsb_exists. exists t. split; auto.
    apply carries_id_has_identity. exact Hid.
Qed.

(** The inner loop finds a difference exactly when a shared non-identity
    field has unequal values. *)
Lemma different_fields_spec (its : list (string * value)) (t : record) :
  different_fields its t = true <->
  exists k v pv, In (k, v) its /\ k <> "id"
    /\ dict_get t k = Some pv /\ py_ne pv v = true.
Proof.
  induction its as [ | [k v] rest IH]; simpl.
  - split; [discriminate | intros (k & v & pv & [] & _)].
  - destruct (String.eqb k "id") eqn:Hk.
    + rewrite IH. apply String.eqb_eq in Hk. split.
      * intros (k' & v' & pv & Hin & H). exists k', v', pv. tauto.
      * intros (k' & v' & pv & [Heq | Hin] & Hne & H).
        -- inversion Heq; subst. congruence.
        -- exists k', v', pv. tauto.
    + apply String.eqb_neq in Hk.
      destruct (dict_get t k) as [pv | ] eqn:Hg.
      * destruct (py_ne pv v) eqn:Hd.
        -- split; auto. intros _. exists k, v, pv. tauto.
        -- rewrite IH. split.
           ++ intros (k' & v' & pv' & Hin & H). exists k', v', pv'. tauto.
           ++ intros (k' & v' & pv' & [Heq | Hin] & Hne & Hg' & Hd').
              ** inversion Heq; subst. congruence.
              ** exists k', v', pv'. tauto.
      * rewrite IH. split.
        -- intros (k' & v' & pv' & Hin & H). exists k', v', pv'. tauto.
        -- intros (k' & v' & pv' & [Heq | Hin] & Hne & Hg' & Hd').
           ++ inversion Heq; subst. congruence.
           ++ exists k', v', pv'. tauto.
Qed.

Lemma in_calculate_inserts (test_records prod_records : list record)
    (r : record) :
  In r (calculate_inserts test_records prod_records) <->
  In r test_records /\ matched prod_records (get_id r) = None.
Proof.
  unfold calculate_inserts. rewrite inserts_loop_filter, filter_In.
  rewrite set_mem_prod_ids.
  destruct (existsb (carries_id (get_id r)) prod_records) eqn:E; simpl.
  - apply existsb_carries_matched in E. destruct E as (t & Ht).
    rewrite Ht. split; intros [? ?]; discriminate.
  - destruct (matched prod_records (get_id r)) as [t | ] eqn:Hm.
    + assert (existsb (carries_id (get_id r)) prod_records = true)
        by (apply existsb_carries_matched; eauto).
      congruence.
    + tauto.
Qed.

Lemma in_calculate_updates (test_records prod_records : list record)
    (r : record) :
  In r (calculate_updates test_records prod_records) <->
  In r test_records
  /\ exists t, matched prod_records (get_id r) = Some t /\ differs_from r t.
Proof.
  unfold calculate_updates. rewrite updates_loop_filter, filter_In.
  unfold needs_update. rewrite prod_dict_matched.
  destruct (matched prod_records (get_id r)) as [t | ].
  - rewrite different_fields_spec. unfold differs_from. split.
    + intros [Hin H]. split; auto. exists t. auto.
    + intros [Hin (t' & Heq & H)]. inversion Heq; subst. auto.
  - split.
    + intros [_ H]. discriminate.
    + intros [_ (t & H & _)]. discriminate.
Qed.

(** ** Dictionaries *)

Section DictFacts.
Variable V : Type.
Implicit Types (d : dict V) (k : string) (v : V).

Lemma dict_get_set d k k' v :
  dict_get (dict_set d k v) k'
  = if String.eqb k k' then Some v else dict_get d k'.
Proof.
  induction d as [ | [k0 v0] d IH]; simpl.
  - reflexivity.
  - destruct (String.eqb k0 k) eqn:H0; simpl.
    + apply String.eqb_eq in H0. subst k0.
      destruct (String.eqb k k'); reflexivity.
    + rewrite IH. destruct (String.eqb k0 k') eqn:H1; auto.
      apply String.eqb_eq in H1. subst k'. rewrite String.eqb_sym, H0.
      reflexivity.
Qed.

Lemma dict_get_in d k v : dict_get d k = Some v -> In (k, v) d.
Proof.
  induction d as [ | [k0 v0] d IH]; simpl; [discriminate | ].
  destruct (String.eqb k0 k) eqn:H0.
  - apply String.eqb_eq in H0. intros H. inversion H; subst. auto.
  - auto.
Qed.

Lemma in_keys d k v : In (k, v) d -> In k (keys d).
Proof. intros H. apply (in_map fst) in H. exact H. Qed.

Lemma in_dict_get d k v : wf_dict d -> In (k, v) d -> dict_get d k = Some v.
Proof.
  unfold wf_dict. induction d as [ | [k0 v0] d IH]; simpl; [tauto | ].
  intros Hnd [Heq | Hin].
  - inversion Heq; subst. rewrite String.eqb_refl. reflexivity.
  - inversion Hnd; subst.
    destruct (String.eqb k0 k) eqn:H0.
    + apply String.eqb_eq in H0. subst k0.
      exfalso. apply H1. eapply in_keys; eauto.
    + auto.
Qed.

Lemma dict_get_none d k : ~ In k (keys d) -> dict_get d k = None.
Proof.
  induction d as [ | [k0 v0] d IH]; simpl; auto.
  intros H. destruct (String.eqb k0 k) eqn:H0.
  - apply String.eqb_eq in H0. tauto.
  - tauto.
Qed.

Lemma contains_keys d k : contains d k = true <-> In k (keys d).
Proof.
  unfold contains. induction d as [ | [k0 v0] d IH]; simpl.
  - split; [discriminate | tauto].
  - destruct (String.eqb k0 k) eqn:H0.
    + apply String.eqb_eq in H0. tauto.
    + apply String.eqb_neq in H0. rewrite IH. tauto.
Qed.

Lemma combine_keys_values d : combine (keys d) (values d) = d.
Proof.
  induction d as [ | [k v] d IH]; simpl; auto.
  f_equal. exact IH.
Qed.
End DictFacts.

(** Assigning a SET list on a row: a key that is not assigned keeps its
    value, an assigned one takes the value of the list. *)
Lemma assign_other (sets : list (string * value)) (row : record) (f : string) :
  ~ In f (keys sets) -> dict_get (assign row sets) f = dict_get row f.
Proof.
  unfold assign. revert row.
  induction sets as [ | [k v] sets IH]; intros row H; simpl in *; auto.
  rewrite IH by tauto. rewrite dict_get_set.
  destruct (String.eqb k f) eqn:E; auto.
  apply String.eqb_eq in E. tauto.
Qed.

Lemma assign_same (sets : list (string * value)) (row : record)
    (f : string) (v : value) :
  wf_dict sets -> In (f, v) sets -> dict_get (assign row sets) f = Some v.
Proof.
  unfold wf_dict, assign. revert row.
  induction sets as [ | [k w] sets IH]; intros row Hnd Hin; simpl in *;
    [tauto | ].
  inversion Hnd; subst. destruct Hin as [Heq | Hin].
  - inversion Heq; subst.
    fold (assign (dict_set row f v) sets).
    rewrite assign_other by assumption.
    rewrite dict_get_set, String.eqb_refl. reflexivity.
  - apply IH; assumption.
Qed.

Lemma set_items_filter (its : list (string * value)) :
  set_items its = filter (fun kv => non_id (fst kv)) its.
Proof.
  induction its as [ | [k v] rest IH]; simpl; auto.
  unfold non_id at 1. simpl.
  destruct (String.eqb k "id"); simpl; rewrite IH; reflexivity.
Qed.

Lemma in_set_items (its : list (string * value)) (f : string) (v : value) :
  In (f, v) (set_items its) <-> In (f, v) its /\ f <> "id".
Proof.
  rewrite set_items_filter, filter_In. unfold non_id. simpl.
  rewrite negb_true_iff, String.eqb_neq. tauto.
Qed.

Lemma set_items_keys (its : list (string * value)) :
  keys (set_items its) = filter non_id (keys its).
Proof.
  induction its as [ | [k v] rest IH]; simpl; auto.
  unfold non_id at 1.
  destruct (String.eqb k "id"); simpl; rewrite IH; reflexivity.
Qed.

Lemma set_items_wf (its : list (string * value)) :
  wf_dict its -> wf_dict (set_items its).
Proof.
  unfold wf_dict. rewrite set_items_keys. apply NoDup_filter.
Qed.

Lemma set_items_no_id (its : list (string * value)) :
  ~ In "id" (keys (set_items its)).
Proof.
  rewrite set_items_keys, filter_In. unfold non_id. simpl. intros [_ H].
  discriminate.
Qed.

(** ** The row store under the Upsert Executor *)

Lemma run_dml_app (c1 c2 : list call) (rows : list record) :
  run_dml (c1 ++ c2) rows = run_dml c2 (run_dml c1 rows).
Proof. unfold run_dml. apply fold_left_app. Qed.

Lemma run_dml_inserts (table_name : string) (records rows : list record) :
  run_dml (map (insert_call table_name) records) rows = rows ++ records.
Proof.
  revert rows. induction records as [ | r rest IH]; intros rows; simpl.
  - rewrite app_nil_r. reflexivity.
  - fold (run_dml (map (insert_call table_name) rest)
                  (rows ++ [combine (keys r) (values r)])).
    rewrite IH, combine_keys_values, <- app_assoc. reflexivity.
Qed.

Lemma run_dml_insert_records (table_name : string)
    (records rows : list record) :
  run_dml (insert_records table_name records) rows = rows ++ records.
Proof.
  unfold insert_records. destruct records as [ | r rest].
  - simpl. rewrite app_nil_r. reflexivity.
  - rewrite run_dml_app, run_dml_inserts. reflexivity.
Qed.

Lemma run_dml_update_call (table_name : string) (rec : record)
    (rows : list record) :
  run_dml (update_call table_name rec) rows = map (touch rec) rows.
Proof.
  unfold update_call, touch.
  destruct (dict_get rec "id") as [record_id | ].
  - destruct (set_items (items rec)) as [ | kv sets] eqn:E.
    + simpl. rewrite map_id. reflexivity.
    + simpl. rewrite combine_keys_values. reflexivity.
  - simpl. rewrite map_id. reflexivity.
Qed.

Lemma run_dml_update_loop (table_name : string) (records rows : list record) :
  run_dml (update_loop table_name records) rows
  = map (apply_updates records) rows.
Proof.
  revert rows. induction records as [ | r rest IH]; intros rows; simpl.
  - rewrite map_id. reflexivity.
  - rewrite run_dml_app, run_dml_update_call, IH, map_map. reflexivity.
Qed.

Lemma run_dml_update_records (table_name : string)
    (records rows : list record) :
  run_dml (update_records table_name records) rows
  = map (apply_updates records) rows.
Proof.
  unfold update_records. destruct records as [ | r rest].
  - simpl. rewrite map_id. reflexivity.
  - rewrite run_dml_app, run_dml_update_loop. reflexivity.
Qed.

(** The rows after reconciliation: the target rows followed by the inserted
    records, each put through the updates. *)
Lemma reconcile_rows (table_name : string)
    (test_records prod_records : list record) :
  reconcile table_name test_records prod_records
  = map (apply_updates (calculate_updates test_records prod_records))
        (prod_records ++ calculate_inserts test_records prod_records).
Proof.
  unfold reconcile, sync_table.
  rewrite run_dml_app, run_dml_insert_records, run_dml_update_records.
  reflexivity.
Qed.

Lemma touch_id (rec row : record) :
  dict_get (touch rec row) "id" = dict_get row "id".
Proof.
  unfold touch. destruct (dict_get rec "id") as [record_id | ]; auto.
  destruct (set_items (items rec)) as [ | kv sets] eqn:E; auto.
  unfold update_row. destruct (dict_get row "id") as [i | ] eqn:Hi; auto.
  destruct (sql_eq i record_id); auto.
  rewrite assign_other; auto.
  rewrite <- E. apply set_items_no_id.
Qed.

Lemma apply_updates_id (records : list record) (row : record) :
  dict_get (apply_updates records row) "id" = dict_get row "id".
Proof.
  unfold apply_updates. revert row.
  induction records as [ | r rest IH]; intros row; simpl; auto.
  rewrite IH. apply touch_id.
Qed.

Lemma apply_updates_snoc (records : list record) (rec row : record) :
  apply_updates (records ++ [rec]) row = touch rec (apply_updates records row).
Proof. unfold apply_updates. rewrite fold_left_app. reflexivity. Qed.

(** An update leaves alone every row whose identity it does not carry. *)
Lemma touch_other (rec row : record) (i : value) :
  dict_get row "id" = Some i -> ~ has_identity rec i -> touch rec row = row.
Proof.
  intros Hi Hn. unfold touch.
  destruct (dict_get rec "id") as [record_id | ] eqn:Hr; auto.
  destruct (set_items (items rec)) as [ | kv sets]; auto.
  unfold update_row. rewrite Hi.
  destruct (sql_eq i record_id) eqn:E; auto.
  exfalso. apply Hn. exists record_id. split; auto.
  rewrite py_eq_sym. apply sql_eq_py_eq. exact E.
Qed.

Lemma apply_updates_other (records : list record) (row : record) (i : value) :
  dict_get row "id" = Some i ->
  (forall u, In u records -> ~ has_identity u i) ->
  apply_updates records row = row.
Proof.
  intros Hi. unfold apply_updates.
  induction records as [ | r rest IH]; intros H; simpl; auto.
  rewrite (@touch_other r row i Hi) by (apply H; simpl; auto).
  apply IH. intros u Hu. apply H. simpl. auto.
Qed.

Lemma has_identity_compat (t : record) (a b : value) :
  py_eq a b = true -> has_identity t a -> has_identity t b.
Proof.
  intros Hab (i & Hi & Ha). exists i. split; auto.
  eapply py_eq_trans; eauto.
Qed.

Lemma has_identity_get_id (t : record) (k : value) :
  has_identity t k -> py_eq (get_id t) k = true.
Proof. intros (i & Hi & Hk). unfold get_id. rewrite Hi. exact Hk. Qed.

Lemma matched_compat (prod_records : list record) (a b : value) :
  py_eq a b = true -> matched prod_records a = matched prod_records b.
Proof.
  intros Hab. unfold matched.
  induction (rev prod_records) as [ | t rest IH]; simpl; auto.
  rewrite (@carries_id_compat a b t Hab), IH. reflexivity.
Qed.

(** With pairwise different identities, two records of one set that carry
    the same identity are the same record. *)
Lemma unique_ids_eq (rs : list record) (a b : record) (k : value) :
  unique_ids rs -> In a rs -> In b rs ->
  has_identity a k -> has_identity b k -> a = b.
Proof.
  induction rs as [ | r rest IH]; simpl; [tauto | ].
  intros [Hr Hu] [Ha | Ha] [Hb | Hb] Hida Hidb; subst; auto.
  - exfalso. destruct Hida as (i & Hi & Hk).
    apply (Hr i Hi b Hb). eapply has_identity_compat; eauto.
    rewrite py_eq_sym. exact Hk.
  - exfalso. destruct Hidb as (i & Hi & Hk).
    apply (Hr i Hi a Ha). eapply has_identity_compat; eauto.
    rewrite py_eq_sym. exact Hk.
Qed.

(** ** Convergence of a source record *)

Lemma agrees_refl (r : record) : agrees r r.
Proof. intros f v H. exists v. split; auto. apply py_eq_refl. Qed.

(** The update built from [r] makes a row of the same identity agree with
    [r] on every field of [r]. *)
Lemma touch_self (r row : record) (k i : value) :
  wf_dict r -> dict_get r "id" = Some k ->
  set_items (items r) <> [] ->
  dict_get row "id" = Some i -> sql_eq i k = true ->
  agrees r (touch r row).
Proof.
  intros Hwf Hk Hne Hi Hm f v Hf.
  unfold touch. rewrite Hk.
  destruct (set_items (items r)) as [ | kv sets] eqn:E; [congruence | ].
  rewrite <- E. unfold update_row. rewrite Hi, Hm.
  destruct (String.eqb f "id") eqn:Hid.
  - apply String.eqb_eq in Hid. subst f.
    rewrite assign_other by apply set_items_no_id.
    exists i. split; auto.
    assert (v = k) by congruence. subst v. apply sql_eq_py_eq. exact Hm.
  - apply String.eqb_neq in Hid. exists v. split; [ | apply py_eq_refl].
    apply assign_same.
    + apply set_items_wf. exact Hwf.
    + apply in_set_items. split; auto. apply dict_get_in. exact Hf.
Qed.

Lemma apply_updates_converge (r : record) (k : value) (us : list record)
    (row : record) (i : value) :
  wf_dict r -> dict_get r "id" = Some k ->
  set_items (items r) <> [] ->
  dict_get row "id" = Some i -> sql_eq i k = true ->
  (forall u, In u us -> u = r \/ ~ has_identity u i) ->
  In r us ->
  agrees r (apply_updates us row).
Proof.
  intros Hwf Hk Hne Hi Hm.
  induction us as [ | u us IH] using rev_ind; intros Hus Hin.
  - destruct Hin.
  - rewrite apply_updates_snoc.
    assert (Hid : dict_get (apply_updates us row) "id" = Some i)
      by (rewrite apply_updates_id; exact Hi).
    destruct (Hus u) as [Hu | Hu].
    + apply in_or_app. right. simpl. auto.
    + subst u. eapply touch_self; eauto.
    + rewrite (@touch_other u _ i Hid Hu).
      apply IH.
      * intros u' Hu'. apply Hus. apply in_or_app. auto.
      * apply in_app_or in Hin. destruct Hin as [Hin | [Hin | []]]; auto.
        subst u. exfalso. apply Hu. exists k. split; auto.
        rewrite py_eq_sym. apply sql_eq_py_eq. exact Hm.
Qed.

Lemma differs_from_set_items (r t : record) :
  differs_from r t -> set_items (items r) <> [].
Proof.
  intros (f & v & pv & Hin & Hne & _) E.
  assert (H : In (f, v) (set_items (items r)))
    by (apply in_set_items; split; auto).
  rewrite E in H. destruct H.
Qed.

(** A matched target record that does not differ from [r] and carries every
    field of [r] agrees with [r]. *)
Lemma agrees_when_no_difference (r t : record) (k : value) :
  dict_get r "id" = Some k -> has_identity t k ->
  (forall f, contains r f = true -> contains t f = true) ->
  ~ differs_from r t ->
  agrees r t.
Proof.
  intros Hk (i & Hi & Hik) Hall Hnd f v Hf.
  destruct (String.eqb f "id") eqn:Hid.
  - apply String.eqb_eq in Hid. subst f.
    assert (v = k) by congruence. subst v. exists i. auto.
  - apply String.eqb_neq in Hid.
    assert (Hc : contains t f = true).
    { apply Hall. unfold contains. rewrite Hf. reflexivity. }
    unfold contains in Hc.
    destruct (dict_get t f) as [pv | ] eqn:Ht; [ | discriminate].
    exists pv. split; auto.
    destruct (py_eq pv v) eqn:E; auto.
    exfalso. apply Hnd. exists f, v, pv. repeat split; auto.
    + apply dict_get_in. exact Hf.
    + unfold py_ne. rewrite E. reflexivity.
Qed.

Lemma differs_from_dec (r t : record) : differs_from r t \/ ~ differs_from r t.
Proof.
  unfold differs_from.
  destruct (different_fields (items r) t) eqn:E.
  - left. apply different_fields_spec. exact E.
  - right. intros H. apply different_fields_spec in H. congruence.
Qed.

Lemma not_none_py_eq (a b : value) :
  py_eq a b = true -> b <> VNone -> a <> VNone.
Proof.
  intros H Hb Ha. subst a. apply py_eq_none_l in H. auto.
Qed.

(** Every update of the plan that carries the identity of [r] is [r]. *)
Lemma updates_of_identity (test_records prod_records : list record)
    (r : record) (k i : value) :
  unique_ids test_records -> In r test_records ->
  dict_get r "id" = Some k -> py_eq i k = true ->
  forall u, In u (calculate_updates test_records prod_records) ->
    u = r \/ ~ has_identity u i.
Proof.
  intros Hu Hr Hk Hik u Hin.
  apply in_calculate_updates in Hin. destruct Hin as [Hin _].
  destruct (carries_id i u) eqn:E.
  - left. apply carries_id_has_identity in E.
    apply unique_ids_eq with (rs := test_records) (k := i); auto.
    exists k. split; auto. rewrite py_eq_sym. exact Hik.
  - right. intros H. apply carries_id_has_identity in H. congruence.
Qed.

(** The rows that carry identity [k] after reconciliation agree with the
    source record of that identity. *)
Lemma reconciled_row_agrees (test_records prod_records : list record)
    (r : record) (k : value) (row : record) :
  unique_ids test_records -> unique_ids prod_records -> wf_dict r ->
  In r test_records -> dict_get r "id" = Some k -> k <> VNone ->
  (forall t, In t prod_records -> has_identity t k ->
     forall f, contains r f = true -> contains t f = true) ->
  In row (prod_records ++ calculate_inserts test_records prod_records) ->
  has_identity row k ->
  agrees r (apply_updates (calculate_updates test_records prod_records) row).
Proof.
  intros Hus Hup Hwf Hr Hk Hnn Hall Hrow Hid.
  assert (Hrk : has_identity r k).
  { exists k. split; auto. apply py_eq_refl. }
  destruct Hid as (i & Hi & Hik).
  assert (Hm : sql_eq i k = true).
  { rewrite sql_eq_intro; auto. eapply not_none_py_eq; eauto. }
  pose proof (@updates_of_identity test_records prod_records r k i
                Hus Hr Hk Hik) as Hupd.
  apply in_app_or in Hrow. destruct Hrow as [Hrow | Hrow].
  - (* a row the target already had *)
    assert (Hrowk : has_identity row k) by (exists i; auto).
    destruct (matched prod_records k) as [t | ] eqn:Hmt.
    2:{ rewrite matched_none in Hmt. exfalso. eapply Hmt; eauto. }
    apply matched_some in Hmt as Ht. destruct Ht as [Htin Htk].
    assert (t = row) by (eapply unique_ids_eq; eauto). subst t.
    destruct (differs_from_dec r row) as [Hd | Hd].
    + apply apply_updates_converge with (k := k) (i := i); auto.
      * eapply differs_from_set_items; eauto.
      * apply in_calculate_updates. split; auto.
        exists row. split; auto.
        unfold get_id. rewrite Hk. exact Hmt.
    + rewrite (@apply_updates_other _ row i Hi).
      * eapply agrees_when_no_difference; eauto.
      * intros u Hu Hui. destruct (Hupd u Hu) as [-> | Hn]; auto.
        apply in_calculate_updates in Hu.
        destruct Hu as [_ (t & Ht & Hdt)].
        unfold get_id in Ht. rewrite Hk, Hmt in Ht.
        inversion Ht; subst. auto.
  - (* a row the plan inserted *)
    apply in_calculate_inserts in Hrow. destruct Hrow as [Hrow Hnone].
    assert (row = r).
    { apply unique_ids_eq with (rs := test_records) (k := k); auto.
      exists i. auto. }
    subst row.
    rewrite (@apply_updates_other _ r k Hk).
    + apply agrees_refl.
    + intros u Hu Huk.
      apply in_calculate_updates in Hu. destruct Hu as [_ (t & Ht & _)].
      rewrite (@matched_compat prod_records (get_id u) k
                 (has_identity_get_id Huk)) in Ht.
      unfold get_id in Hnone. rewrite Hk in Hnone. congruence.
Qed.

(** ** The statements of a run *)

Lemma statements_app (c1 c2 : list call) :
  statements (c1 ++ c2) = statements c1 ++ statements c2.
Proof.
  induction c1 as [ | [s | ] c1 IH]; simpl; auto.
  rewrite IH. reflexivity.
Qed.

Lemma create_calls_ddl (missing_tables : list string) :
  Forall is_ddl (statements (create_calls missing_tables)).
Proof.
  induction missing_tables as [ | t rest IH]; simpl; auto.
  constructor; simpl; auto.
Qed.

Lemma structure_loop_ddl (table_name : string) (prod_columns : table_columns)
    (test_items : list (string * string)) :
  Forall is_ddl (statements (structure_loop table_name prod_columns test_items)).
Proof.
  induction test_items as [ | [c ty] rest IH]; simpl; auto.
  destruct (dict_get prod_columns c) as [pty | ].
  - destruct (negb (String.eqb ty pty)); auto.
    unfold _alter_column_type. simpl. constructor; simpl; auto.
  - unfold _add_column. simpl. constructor; simpl; auto.
Qed.

Lemma common_loop_ddl (test_conn : schema) (tables : list string)
    (prod_conn : schema) :
  Forall is_ddl (statements (common_loop test_conn prod_conn tables)).
Proof.
  revert prod_conn. induction tables as [ | t rest IH]; intros prod_conn; simpl.
  - constructor.
  - rewrite statements_app. apply Forall_app. split.
    + apply structure_loop_ddl.
    + apply IH.
Qed.

Lemma sync_schema_ddl (test_conn prod_conn : schema) :
  Forall is_ddl (statements (sync_schema test_conn prod_conn)).
Proof.
  unfold sync_schema. rewrite statements_app. apply Forall_app. split.
  - apply create_calls_ddl.
  - apply common_loop_ddl.
Qed.

Lemma is_ddl_additive (s : statement) : is_ddl s -> additive_ddl (query s).
Proof.
  unfold additive_ddl. destruct s; simpl; try tauto; intros _.
  - left. exists table_name. reflexivity.
  - right. left. exists table_name, column_name, column_type. reflexivity.
  - right. right. exists table_name, column_name, column_type. reflexivity.
Qed.

Lemma insert_records_upsert (table_name : string) (records : list record) :
  Forall is_upsert (statements (insert_records table_name records)).
Proof.
  unfold insert_records. destruct records as [ | r0 rest]; [constructor | ].
  rewrite statements_app. apply Forall_app. split; [ | constructor].
  induction (r0 :: rest) as [ | r l IH]; simpl; constructor; simpl; auto.
Qed.

Lemma update_loop_upsert (table_name : string) (records : list record) :
  Forall is_upsert (statements (update_loop table_name records)).
Proof.
  induction records as [ | r rest IH]; simpl; [constructor | ].
  rewrite statements_app. apply Forall_app. split; auto.
  unfold update_call. destruct (dict_get r "id"); [ | constructor].
  destruct (set_items (items r)); constructor; simpl; auto.
Qed.

Lemma update_records_upsert (table_name : string) (records : list record) :
  Forall is_upsert (statements (update_records table_name records)).
Proof.
  unfold update_records. destruct records as [ | r0 rest]; [constructor | ].
  rewrite statements_app. apply Forall_app. split; [ | constructor].
  apply update_loop_upsert.
Qed.

Lemma is_upsert_dml (s : statement) : is_upsert s -> upsert_dml (query s).
Proof.
  unfold upsert_dml. destruct s; simpl; try tauto; intros _.
  - left. eexists. reflexivity.
  - right. eexists. reflexivity.
Qed.

(** ** The update path, statement by statement *)

Lemma update_loop_app (table_name : string) (l1 l2 : list record) :
  update_loop table_name (l1 ++ l2)
  = update_loop table_name l1 ++ update_loop table_name l2.
Proof.
  induction l1 as [ | r l1 IH]; simpl; auto.
  rewrite IH, app_assoc. reflexivity.
Qed.

Lemma set_items_nil (its : list (string * value)) :
  set_items its = [] <-> existsb non_id (keys its) = false.
Proof.
  induction its as [ | [k v] rest IH]; simpl.
  - tauto.
  - unfold non_id at 1. destruct (String.eqb k "id"); simpl.
    + exact IH.
    + split; discriminate.
Qed.

Lemma update_call_args (table_name : string) (rec : record) :
  map call_args (update_call table_name rec)
  = if updatable rec then [update_args table_name rec] else [].
Proof.
  unfold update_call, updatable, contains, update_args, get_id.
  destruct (dict_get rec "id") as [record_id | ]; simpl; auto.
  rewrite <- set_items_filter.
  destruct (set_items (items rec)) as [ | kv sets] eqn:E.
  - apply set_items_nil in E. unfold items in E. rewrite E. reflexivity.
  - assert (Hx : existsb non_id (keys rec) = true).
    { destruct (existsb non_id (keys rec)) eqn:X; auto.
      apply set_items_nil in X. unfold items in E. congruence. }
    rewrite Hx. simpl. unfold keys, values, set_clause_part.
    rewrite !map_map. reflexivity.
Qed.

Lemma update_loop_args (table_name : string) (records : list record) :
  map call_args (update_loop table_name records)
  = map (update_args table_name) (filter updatable records).
Proof.
  induction records as [ | r rest IH]; simpl; auto.
  rewrite map_app, update_call_args, IH.
  destruct (updatable r); reflexivity.
Qed.

(** ** The catalog under the schema run *)

Lemma dict_get_snoc (V : Type) (d : dict V) (k k' : string) (v : V) :
  dict_get (d ++ [(k, v)]) k'
  = match dict_get d k' with
    | Some x => Some x
    | None => if String.eqb k k' then Some v else None
    end.
Proof.
  induction d as [ | [k0 v0] d IH]; simpl; auto.
  destruct (String.eqb k0 k'); auto.
Qed.

Lemma run_ddl_app (c1 c2 : list call) (conn : schema) :
  run_ddl (c1 ++ c2) conn = run_ddl c2 (run_ddl c1 conn).
Proof. unfold run_ddl. apply fold_left_app. Qed.

Lemma dict_get_on_table (t : string) (f : table_columns -> table_columns)
    (conn : schema) (t' : string) :
  dict_get (on_table t f conn) t'
  = match dict_get conn t' with
    | Some cols => Some (if String.eqb t' t then f cols else cols)
    | None => None
    end.
Proof.
  induction conn as [ | [t0 c0] conn IH]; simpl; auto.
  destruct (String.eqb t0 t') eqn:E'.
  - apply String.eqb_eq in E'. subst t'.
    destruct (String.eqb t0 t); simpl; rewrite String.eqb_refl; reflexivity.
  - destruct (String.eqb t0 t); simpl; rewrite E'; exact IH.
Qed.

Lemma get_tables_on_table (t : string) (f : table_columns -> table_columns)
    (conn : schema) :
  _get_tables (on_table t f conn) = _get_tables conn.
Proof.
  unfold _get_tables, on_table. rewrite map_map. apply map_ext.
  intros [t0 c0]. simpl. destruct (String.eqb t0 t); reflexivity.
Qed.

Lemma mem_get_tables (conn : schema) (t : string) :
  mem t (_get_tables conn) = contains conn t.
Proof.
  unfold contains. induction conn as [ | [t0 c0] conn IH]; simpl; auto.
  rewrite (String.eqb_sym t t0). destruct (String.eqb t0 t); simpl; auto.
Qed.

Lemma get_with_column (cols : table_columns) (c ty c' : string) :
  dict_get cols c = None ->
  dict_get (with_column c ty cols) c'
  = if String.eqb c c' then Some ty else dict_get cols c'.
Proof.
  intros H. unfold with_column, contains. rewrite H, dict_get_snoc.
  destruct (String.eqb c c') eqn:E.
  - apply String.eqb_eq in E. subst c'. rewrite H. reflexivity.
  - destruct (dict_get cols c'); reflexivity.
Qed.

Lemma get_with_type (cols : table_columns) (c ty pty c' : string) :
  dict_get cols c = Some pty ->
  dict_get (with_type c ty cols) c'
  = if String.eqb c c' then Some ty else dict_get cols c'.
Proof.
  intros H. unfold with_type, contains. rewrite H. apply dict_get_set.
Qed.

(** A table whose columns already agree with the source gives no statement. *)
Lemma structure_loop_nil (t : string) (pc : table_columns)
    (its : list (string * string)) :
  (forall c ty, In (c, ty) its -> dict_get pc c = Some ty) ->
  structure_loop t pc its = [].
Proof.
  induction its as [ | [c ty] rest IH]; intros H; simpl; auto.
  rewrite (H c ty) by (simpl; auto). rewrite String.eqb_refl. simpl.
  apply IH. intros c' ty' Hin. apply H. simpl. auto.
Qed.

(** The statements for one table leave the other tables alone. *)
Lemma structure_loop_other (t : string) (pc : table_columns)
    (its : list (string * string)) (conn : schema) (t' : string) :
  t' <> t ->
  dict_get (run_ddl (structure_loop t pc its) conn) t' = dict_get conn t'.
Proof.
  intros Hne. apply String.eqb_neq in Hne.
  assert (Hstep : forall f cn,
             dict_get (on_table t f cn) t' = dict_get cn t').
  { intros f cn. rewrite dict_get_on_table, Hne.
    destruct (dict_get cn t'); reflexivity. }
  revert conn. induction its as [ | [c ty] rest IH]; intros conn; cbn [structure_loop]; auto.
  destruct (dict_get pc c) as [pty | ].
  - destruct (negb (String.eqb ty pty)); auto.
    rewrite run_ddl_app, IH. simpl. apply Hstep.
  - rewrite run_ddl_app, IH. simpl. apply Hstep.
Qed.

Lemma structure_loop_tables (t : string) (pc : table_columns)
    (its : list (string * string)) (conn : schema) :
  _get_tables (run_ddl (structure_loop t pc its) conn) = _get_tables conn.
Proof.
  revert conn. induction its as [ | [c ty] rest IH]; intros conn; cbn [structure_loop]; auto.
  destruct (dict_get pc c) as [pty | ].
  - destruct (negb (String.eqb ty pty)); auto.
    rewrite run_ddl_app, IH. simpl. apply get_tables_on_table.
  - rewrite run_ddl_app, IH. simpl. apply get_tables_on_table.
Qed.

(** The statements for one table, executed in order, give the table every
    source column with the source type. *)
Lemma structure_loop_effect (t : string) (pc : table_columns)
    (its : list (string * string)) :
  wf_dict its ->
  forall (conn : schema) (cur : table_columns),
    dict_get conn t = Some cur ->
    (forall c, In c (keys its) -> dict_get cur c = dict_get pc c) ->
    exists cur',
      dict_get (run_ddl (structure_loop t pc its) conn) t = Some cur'
      /\ (forall c ty, In (c, ty) its -> dict_get cur' c = Some ty)
      /\ (forall c, ~ In c (keys its) -> dict_get cur' c = dict_get cur c).
Proof.
  unfold wf_dict.
  induction its as [ | [c ty] rest IH]; intros Hnd conn cur Hcur Hpc.
  - exists cur. simpl. repeat split; auto. intros c ty [].
  - inversion Hnd as [ | ? ? Hc Hrest]; subst.
    assert (Hstep : forall cur1 conn1,
               dict_get conn1 t = Some cur1 ->
               (forall c', dict_get cur1 c'
                           = if String.eqb c c' then Some ty
                             else dict_get cur c') ->
               exists cur',
                 dict_get (run_ddl (structure_loop t pc rest) conn1) t
                 = Some cur'
                 /\ (forall c0 ty0, In (c0, ty0) ((c, ty) :: rest) ->
                       dict_get cur' c0 = Some ty0)
                 /\ (forall c0, ~ In c0 (keys ((c, ty) :: rest)) ->
                       dict_get cur' c0 = dict_get cur c0)).
    { intros cur1 conn1 Hc1 Hget.
      destruct (IH Hrest conn1 cur1 Hc1) as (cur' & H1 & H2 & H3).
      - intros c' Hc'. rewrite Hget.
        destruct (String.eqb c c') eqn:E.
        + apply String.eqb_eq in E. subst c'. tauto.
        + apply Hpc. simpl. auto.
      - exists cur'. split; [exact H1 | split].
        + intros c0 ty0 [Heq | Hin].
          * inversion Heq; subst. rewrite H3 by exact Hc.
            rewrite Hget, String.eqb_refl. reflexivity.
          * apply H2. exact Hin.
        + intros c0 Hn. simpl in Hn. rewrite H3 by tauto. rewrite Hget.
          destruct (String.eqb c c0) eqn:E; auto.
          apply String.eqb_eq in E. tauto. }
    assert (Hcc : dict_get cur c = dict_get pc c)
      by (apply Hpc; simpl; auto).
    cbn [structure_loop]. destruct (dict_get pc c) as [pty | ] eqn:Hp.
    + destruct (String.eqb ty pty) eqn:Ety; cbn [negb].
      * apply String.eqb_eq in Ety. subst pty.
        apply (Hstep cur conn Hcur). intros c'.
        destruct (String.eqb c c') eqn:E; auto.
        apply String.eqb_eq in E. subst c'. exact Hcc.
      * rewrite run_ddl_app. simpl.
        apply (Hstep (with_type c ty cur)).
        -- rewrite dict_get_on_table, Hcur, String.eqb_refl. reflexivity.
        -- intros c'. apply get_with_type with (pty := pty). exact Hcc.
    + rewrite run_ddl_app. simpl.
      apply (Hstep (with_column c ty cur)).
      * rewrite dict_get_on_table, Hcur, String.eqb_refl. reflexivity.
      * intros c'. apply get_with_column. exact Hcc.
Qed.

Lemma sync_table_structure_synced (test_conn conn : schema) (t : string) :
  wf_dict (_get_table_columns test_conn t) ->
  contains conn t = true ->
  synced test_conn (run_ddl (_sync_table_structure test_conn conn t) conn) t.
Proof.
  intros Hwf Hc. unfold _sync_table_structure, contains in *.
  destruct (dict_get conn t) as [cur | ] eqn:Hcur; [ | discriminate].
  destruct (@structure_loop_effect t (_get_table_columns conn t)
              (items (_get_table_columns test_conn t)) Hwf conn cur Hcur)
    as (cur' & H1 & H2 & _).
  - intros c _. unfold _get_table_columns. rewrite Hcur. reflexivity.
  - intros c ty Hin. unfold _get_table_columns at 1. rewrite H1.
    apply H2. exact Hin.
Qed.

Lemma sync_table_structure_nil (test_conn conn : schema) (t : string) :
  synced test_conn conn t -> _sync_table_structure test_conn conn t = [].
Proof. intros H. apply structure_loop_nil. exact H. Qed.

Lemma sync_table_structure_preserves (test_conn conn : schema) (t t' : string) :
  synced test_conn conn t ->
  synced test_conn (run_ddl (_sync_table_structure test_conn conn t') conn) t.
Proof.
  intros H. destruct (String.eqb t t') eqn:E.
  - apply String.eqb_eq in E. subst t'.
    rewrite sync_table_structure_nil by exact H. exact H.
  - apply String.eqb_neq in E. intros c ty Hin.
    unfold _get_table_columns at 1. unfold _sync_table_structure.
    rewrite structure_loop_other by exact E. apply H. exact Hin.
Qed.

Lemma common_loop_preserves (test_conn : schema) (tables : list string)
    (conn : schema) (t : string) :
  synced test_conn conn t ->
  synced test_conn (run_ddl (common_loop test_conn conn tables) conn) t.
Proof.
  revert conn. induction tables as [ | t0 rest IH]; intros conn H; simpl; auto.
  rewrite run_ddl_app. apply IH. apply sync_table_structure_preserves. exact H.
Qed.

Lemma common_loop_synced (test_conn : schema) (tables : list string) :
  (forall t, In t tables -> wf_dict (_get_table_columns test_conn t)) ->
  forall conn,
    (forall t, In t tables -> contains conn t = true) ->
    forall t, In t tables ->
      synced test_conn (run_ddl (common_loop test_conn conn tables) conn) t.
Proof.
  induction tables as [ | t0 rest IH]; intros Hwf conn Hc t Hin.
  - destruct Hin.
  - simpl. rewrite run_ddl_app.
    destruct (String.eqb t0 t) eqn:E.
    + apply String.eqb_eq in E. subst t0.
      apply common_loop_preserves. apply sync_table_structure_synced.
      * apply Hwf. simpl. auto.
      * apply Hc. simpl. auto.
    + apply String.eqb_neq in E. destruct Hin as [Heq | Hin]; [congruence | ].
      apply IH; auto.
      * intros t1 H1. apply Hwf. simpl. auto.
      * intros t1 H1. rewrite <- mem_get_tables.
        unfold _sync_table_structure. rewrite structure_loop_tables.
        rewrite mem_get_tables. apply Hc. simpl. auto.
Qed.

Lemma common_loop_nil (test_conn : schema) (tables : list string)
    (conn : schema) :
  (forall t, In t tables -> synced test_conn conn t) ->
  common_loop test_conn conn tables = [].
Proof.
  induction tables as [ | t0 rest IH]; intros H; simpl; auto.
  rewrite sync_table_structure_nil by (apply H; simpl; auto).
  simpl. apply IH. intros t Hin. apply H. simpl. auto.
Qed.

Lemma common_loop_tables (test_conn : schema) (tables : list string)
    (conn : schema) :
  _get_tables (run_ddl (common_loop test_conn conn tables) conn)
  = _get_tables conn.
Proof.
  revert conn. induction tables as [ | t0 rest IH]; intros conn; simpl; auto.
  rewrite run_ddl_app, IH. unfold _sync_table_structure.
  apply structure_loop_tables.
Qed.

Lemma filter_all (A : Type) (f : A -> bool) (l : list A) :
  (forall x, In x l -> f x = true) -> filter f l = l.
Proof.
  induction l as [ | x l IH]; intros H; simpl; auto.
  rewrite (H x) by (simpl; auto). f_equal. apply IH.
  intros y Hy. apply H. simpl. auto.
Qed.

Lemma filter_none (A : Type) (f : A -> bool) (l : list A) :
  (forall x, In x l -> f x = true) -> filter (fun x => negb (f x)) l = [].
Proof.
  induction l as [ | x l IH]; intros H; simpl; auto.
  rewrite (H x) by (simpl; auto). simpl. apply IH.
  intros y Hy. apply H. simpl. auto.
Qed.

Lemma wf_schema_columns (conn : schema) (t : string) :
  wf_schema conn -> wf_dict (_get_table_columns conn t).
Proof.
  intros H. unfold _get_table_columns.
  destruct (dict_get conn t) as [cols | ] eqn:E.
  - apply (H t). apply dict_get_in. exact E.
  - constructor.
Qed.

(** When no table has to be created, the schema run only completes the
    common tables, and a second run finds nothing to do. *)
Lemma sync_schema_common (test_conn prod_conn : schema) :
  no_missing_table test_conn prod_conn ->
  sync_schema test_conn prod_conn
  = common_loop test_conn prod_conn (_get_tables test_conn).
Proof.
  intros H. unfold sync_schema.
  rewrite filter_none by exact H. rewrite filter_all by exact H.
  reflexivity.
Qed.

Lemma sync_schema_settles (test_conn prod_conn : schema) :
  wf_schema test_conn ->
  no_missing_table test_conn prod_conn ->
  sync_schema test_conn
    (run_ddl (sync_schema test_conn prod_conn) prod_conn) = [].
Proof.
  intros Hwf Hno.
  rewrite (sync_schema_common Hno).
  rewrite sync_schema_common.
  - apply common_loop_nil. apply common_loop_synced.
    + intros t _. apply wf_schema_columns. exact Hwf.
    + intros t Ht. rewrite <- mem_get_tables. apply Hno. exact Ht.
  - intros t Ht. rewrite common_loop_tables. apply Hno. exact Ht.
Qed.

(** X12. When every table of the source already exists on the target and
    the source tables are dicts of columns, applying the statements of
    [sync_schema] and running it again gives no call. *)
Theorem sync_schema_idempotent_without_creation (test_conn prod_conn : schema) :
  wf_schema test_conn ->
  no_missing_table test_conn prod_conn ->
  sync_schema test_conn
    (run_ddl (sync_schema test_conn prod_conn) prod_conn) = [].
Proof. apply sync_schema_settles. Qed.

(** Every table the prod catalog lacks gets a CREATE TABLE. *)
Lemma create_calls_statements (missing_tables : list string) :
  statements (create_calls missing_tables) = map CreateTable missing_tables.
Proof.
  induction missing_tables as [ | t rest IH]; simpl; auto.
  rewrite IH. reflexivity.
Qed.

Lemma missing_table_is_created (test_conn prod_conn : schema) (t : string) :
  In t (_get_tables test_conn) ->
  mem t (_get_tables prod_conn) = false ->
  In (CreateTable t) (statements (sync_schema test_conn prod_conn)).
Proof.
  intros Hin Hm. unfold sync_schema.
  rewrite statements_app, create_calls_statements.
  apply in_or_app. left. apply in_map. apply filter_In.
  rewrite Hm. auto.
Qed.

(** ** Why convergence needs its side conditions *)

(** Two source records of one identity: the second one is not converged. *)
Lemma duplicate_source_identity_not_converged :
  ~ converged [("id", VInt 1); ("name", VStr "b")] (VInt 1)
      (reconcile "some_ref_table"
         [ [("id", VInt 1); ("name", VStr "a")];
           [("id", VInt 1); ("name", VStr "b")] ]
         [ [("id", VInt 1); ("name", VStr "b")] ]).
Proof.
  intros [_ H].
  destruct (H [("id", VInt 1); ("name", VStr "a")]) with
    (f := "name") (v := VStr "b") as (tv & Htv & He).
  - simpl. auto.
  - exists (VInt 1). split; reflexivity.
  - reflexivity.
  - inversion Htv; subst. discriminate.
Qed.

(** Two target records of one identity: only the last one is compared. *)
Lemma duplicate_target_identity_not_converged :
  ~ converged [("id", VInt 1); ("name", VStr "a")] (VInt 1)
      (reconcile "some_ref_table"
         [ [("id", VInt 1); ("name", VStr "a")] ]
         [ [("id", VInt 1); ("name", VStr "x")];
           [("id", VInt 1); ("name", VStr "a")] ]).
Proof.
  intros [_ H].
  destruct (H [("id", VInt 1); ("name", VStr "x")]) with
    (f := "name") (v := VStr "a") as (tv & Htv & He).
  - simpl. auto.
  - exists (VInt 1). split; reflexivity.
  - reflexivity.
  - inversion Htv; subst. discriminate.
Qed.

(** A null identity: the UPDATE is issued, and its WHERE clause matches no
    row. *)
Lemma null_identity_not_converged :
  ~ converged [("id", VNone); ("name", VStr "a")] VNone
      (reconcile "some_ref_table"
         [ [("id", VNone); ("name", VStr "a")] ]
         [ [("id", VNone); ("name", VStr "b")] ]).
Proof.
  intros [_ H].
  destruct (H [("id", VNone); ("name", VStr "b")]) with
    (f := "name") (v := VStr "a") as (tv & Htv & He).
  - simpl. auto.
  - exists VNone. split; reflexivity.
  - reflexivity.
  - inversion Htv; subst. discriminate.
Qed.

(** ** The properties of the specification *)

(** C1. On Scenario B (source [{id:1,name:'TestName1'},
    {id:2,name:'TestName2'}], target [{id:1,name:'OldName'}]) the Record
    Differ yields exactly inserts = [{id:2,name:'TestName2'}] and
    updates = [{id:1,name:'TestName1'}]. *)
Theorem scenario_b_plan :
  calculate_inserts scenario_b_test scenario_b_prod
    = [ [("id", VInt 2); ("name", VStr "TestName2")] ]
  /\ calculate_updates scenario_b_test scenario_b_prod
    = [ [("id", VInt 1); ("name", VStr "TestName1")] ].
Proof. split; reflexivity. Qed.

(** C2, as stated, fails: against an empty target the source record
    {name:'x'}, which has no identity field, is in the insert-set. *)
Lemma record_without_id_is_inserted :
  ~ excludes_records_without_id [ [("name", VStr "x")] ] [].
Proof.
  intros H.
  destruct (H [("name", VStr "x")]) as [Hins _].
  - simpl. auto.
  - reflexivity.
  - apply Hins. simpl. auto.
Qed.

(** C2, amended. A source record without the identity field is handled as
    a record of identity [None] ([r.get('id')]): it is in the insert-set
    exactly when no target record has the identity value [None], and then
    it is not in the update-set. *)
Theorem record_without_id_plan (test_records prod_records : list record)
    (r : record) :
  In r test_records -> dict_get r "id" = None ->
  (In r (calculate_inserts test_records prod_records)
     <-> no_null_identity prod_records)
  /\ (no_null_identity prod_records ->
      ~ In r (calculate_updates test_records prod_records)).
Proof.
  intros Hin Hid.
  assert (Hg : get_id r = VNone) by (unfold get_id; rewrite Hid; reflexivity).
  assert (Hnone : matched prod_records VNone = None
                  <-> no_null_identity prod_records).
  { rewrite matched_none. unfold no_null_identity. split.
    - intros H t Ht E. apply (H t Ht). exists VNone. auto.
    - intros H t Ht (i & Hi & Hk). apply (H t Ht).
      rewrite py_eq_sym in Hk. apply py_eq_none_l in Hk. congruence. }
  split.
  - rewrite in_calculate_inserts, Hg, Hnone. tauto.
  - intros Hnn Hu. apply in_calculate_updates in Hu.
    destruct Hu as [_ (t & Ht & _)].
    rewrite Hg in Ht. apply Hnone in Hnn. congruence.
Qed.

Lemma record_without_id_plan_witness :
  (In [("name", VStr "x")]
      (calculate_inserts [ [("name", VStr "x")] ] scenario_b_prod)
     <-> no_null_identity scenario_b_prod)
  /\ (no_null_identity scenario_b_prod ->
      ~ In [("name", VStr "x")]
           (calculate_updates [ [("name", VStr "x")] ] scenario_b_prod)).
Proof.
  apply (@record_without_id_plan [ [("name", VStr "x")] ] scenario_b_prod).
  - simpl. auto.
  - reflexivity.
Defined.

(** C3. [calculate_updates] puts a source record in the update-set if and
    only if its identity value ([r.get('id')]) is present in the target
    index and some non-identity field present in both the source record and
    the matched target record has unequal values ([!=]); the record emitted
    is the source record itself; and when every non-identity field of the
    source record is either absent from the matched target record or equal
    there, no update is triggered. *)
Theorem calculate_updates_spec (test_records prod_records : list record)
    (r : record) :
  (In r (calculate_updates test_records prod_records) <->
   In r test_records
   /\ exists t, matched prod_records (get_id r) = Some t /\ differs_from r t)
  /\ (forall t, matched prod_records (get_id r) = Some t ->
      (forall k v, In (k, v) (items r) -> k <> "id" ->
         dict_get t k = None
         \/ exists pv, dict_get t k = Some pv /\ py_eq pv v = true) ->
      ~ In r (calculate_updates test_records prod_records)).
Proof.
  split.
  - apply in_calculate_updates.
  - intros t Ht Hsame Hin.
    apply in_calculate_updates in Hin.
    destruct Hin as [_ (t' & Ht' & (k & v & pv & Hkv & Hne & Hg & Hd))].
    assert (t' = t) by congruence. subst t'.
    destruct (Hsame k v Hkv Hne) as [Habs | (pv' & Hg' & He)].
    + congruence.
    + assert (pv' = pv) by congruence. subst pv'.
      unfold py_ne in Hd. rewrite He in Hd. discriminate.
Qed.

(** A field of the source that the target record lacks triggers no update:
    {id:1,name:'a',extra:'x'} against {id:1,name:'a'}. *)
Lemma calculate_updates_spec_witness :
  ~ In [("id", VInt 1); ("name", VStr "a"); ("extra", VStr "x")]
       (calculate_updates
          [ [("id", VInt 1); ("name", VStr "a"); ("extra", VStr "x")] ]
          [ [("id", VInt 1); ("name", VStr "a")] ]).
Proof.
  apply (proj2 (calculate_updates_spec
                  [ [("id", VInt 1); ("name", VStr "a"); ("extra", VStr "x")] ]
                  [ [("id", VInt 1); ("name", VStr "a")] ]
                  [("id", VInt 1); ("name", VStr "a"); ("extra", VStr "x")])
               [("id", VInt 1); ("name", VStr "a")]).
  - reflexivity.
  - intros k v [H | [H | [H | []]]] Hne; inversion H; subst.
    + congruence.
    + right. exists (VStr "a"). split; reflexivity.
    + left. reflexivity.
Defined.

(** C6, as stated, fails: the source record {id:1,name:'a',extra:'x'} and
    the target record {id:1,name:'a'} share no field with unequal values, so
    the plan is empty and the target record of identity 1 still has no
    field extra. *)
Lemma missing_field_is_not_converged :
  ~ converged [("id", VInt 1); ("name", VStr "a"); ("extra", VStr "x")]
      (VInt 1)
      (reconcile "some_ref_table"
         [ [("id", VInt 1); ("name", VStr "a"); ("extra", VStr "x")] ]
         [ [("id", VInt 1); ("name", VStr "a")] ]).
Proof.
  intros [_ H].
  destruct (H [("id", VInt 1); ("name", VStr "a")]) with
    (f := "extra") (v := VStr "x") as (tv & Htv & _).
  - simpl. auto.
  - exists (VInt 1). split; reflexivity.
  - reflexivity.
  - discriminate.
Qed.

(** C6, amended. When the identity values are pairwise different within
    the source and within the target record set, for every source record
    [r] carrying a non-null identity value [k] such that a target record of
    identity [k], if there is one, has every field of [r]: after the plan of
    [calculate_inserts] and [calculate_updates] has been applied by
    [insert_records] and [update_records], the target has a record of
    identity [k], and it has, for every field of [r], a value equal to
    [r]'s. *)
Theorem reconcile_converges (table_name : string)
    (test_records prod_records : list record) (r : record) (k : value) :
  unique_ids test_records -> unique_ids prod_records -> wf_dict r ->
  In r test_records -> dict_get r "id" = Some k -> k <> VNone ->
  (forall t, In t prod_records -> has_identity t k ->
     forall f, contains r f = true -> contains t f = true) ->
  converged r k (reconcile table_name test_records prod_records).
Proof.
  intros Hus Hup Hwf Hr Hk Hnn Hall.
  rewrite reconcile_rows.
  set (us := calculate_updates test_records prod_records).
  assert (Hrk : has_identity r k).
  { exists k. split; auto. apply py_eq_refl. }
  split.
  - assert (Hex : exists row,
               In row (prod_records
                         ++ calculate_inserts test_records prod_records)
               /\ has_identity row k).
    { destruct (matched prod_records k) as [t | ] eqn:Hm.
      - apply matched_some in Hm. destruct Hm as [Hin Hid].
        exists t. split; auto. apply in_or_app. auto.
      - exists r. split; auto. apply in_or_app. right.
        apply in_calculate_inserts. split; auto.
        unfold get_id. rewrite Hk. exact Hm. }
    destruct Hex as (row & Hin & (i & Hi & Hik)).
    exists (apply_updates us row). split.
    + apply in_map. exact Hin.
    + exists i. split; auto. rewrite apply_updates_id. exact Hi.
  - intros t Hin Hid.
    apply in_map_iff in Hin. destruct Hin as (row & <- & Hrow).
    eapply reconciled_row_agrees; eauto.
    destruct Hid as (i & Hi & Hik). exists i. split; auto.
    rewrite apply_updates_id in Hi. exact Hi.
Qed.

Lemma reconcile_converges_witness :
  converged [("id", VInt 1); ("name", VStr "TestName1")] (VInt 1)
    (reconcile "some_ref_table" scenario_b_test scenario_b_prod).
Proof.
  apply reconcile_converges.
  - simpl. split; [ | split; [ | exact I]].
    + intros i Hi t [<- | []] (j & Hj & Hij).
      inversion Hi; subst. inversion Hj; subst. discriminate.
    + intros i Hi t [].
  - simpl. split; [ | exact I]. intros i Hi t [].
  - unfold wf_dict. simpl. repeat constructor; simpl; intuition discriminate.
  - simpl. auto.
  - reflexivity.
  - discriminate.
  - intros t [<- | []] _ f. rewrite !contains_keys. simpl. tauto.
Defined.

(** C7. Additivity and no deletion: every statement of a schema run is one
    of CREATE TABLE, ALTER TABLE ... ADD COLUMN and ALTER TABLE ... ALTER
    COLUMN ... TYPE; every statement of a reconciliation run is an INSERT or
    an UPDATE; and a target record whose identity no source record carries
    is, after the plan has been applied, the same record at the same
    place. *)
Theorem additive_and_no_deletion :
  (forall (test_conn prod_conn : schema) (s : statement),
      In s (statements (sync_schema test_conn prod_conn)) ->
      additive_ddl (query s))
  /\ (forall (table_name : string) (test_records prod_records : list record)
             (s : statement),
      In s (statements (sync_table table_name test_records prod_records)) ->
      upsert_dml (query s))
  /\ (forall (table_name : string) (test_records prod_records : list record)
             (n : nat) (t : record),
      nth_error prod_records n = Some t ->
      target_only test_records t ->
      nth_error (reconcile table_name test_records prod_records) n = Some t).
Proof.
  split; [ | split].
  - intros test_conn prod_conn s Hin. apply is_ddl_additive.
    pose proof (sync_schema_ddl test_conn prod_conn) as H.
    rewrite Forall_forall in H. auto.
  - intros table_name test_records prod_records s Hin.
    apply is_upsert_dml. unfold sync_table in Hin.
    rewrite statements_app in Hin. apply in_app_or in Hin.
    destruct Hin as [Hin | Hin].
    + pose proof (insert_records_upsert table_name
                    (calculate_inserts test_records prod_records)) as H.
      rewrite Forall_forall in H. auto.
    + pose proof (update_records_upsert table_name
                    (calculate_updates test_records prod_records)) as H.
      rewrite Forall_forall in H. auto.
  - intros table_name test_records prod_records n t Hn (k & Hk & Honly).
    rewrite reconcile_rows, nth_error_map, nth_error_app1.
    + rewrite Hn. simpl. f_equal.
      apply apply_updates_other with (i := k); auto.
      intros u Hu. apply Honly.
      apply in_calculate_updates in Hu. tauto.
    + apply nth_error_Some. congruence.
Qed.

(** The target record {id:7,name:'Keep'} of Scenario B extended with it is
    untouched. *)
Lemma additive_and_no_deletion_witness :
  nth_error
    (reconcile "some_ref_table" scenario_b_test
       (scenario_b_prod ++ [ [("id", VInt 7); ("name", VStr "Keep")] ])) 1
  = Some [("id", VInt 7); ("name", VStr "Keep")].
Proof.
  apply (proj2 (proj2 additive_and_no_deletion)).
  - reflexivity.
  - exists (VInt 7). split; [reflexivity | ].
    intros r [<- | [<- | []]] (i & Hi & Hik);
      inversion Hi; subst; discriminate.
Defined.

(** C4 (the code departs from it). In Scenario A the only statement of the
    schema run creates orders, and adds or retypes no column; but the DDL of
    [_get_create_table_ddl] is a fixed text that does not carry the source
    definition: orders is created with the columns id and dummy_field, while
    the source table has id and total. *)
Theorem created_table_ignores_source_definition :
  map call_args (sync_schema scenario_a_test scenario_a_prod)
  = [ Some ("CREATE TABLE orders (id SERIAL PRIMARY KEY, dummy_field VARCHAR(100));",
            []);
      None ]
  /\ _get_table_columns scenario_a_test "orders"
     = [("id", "integer"); ("total", "numeric")]
  /\ _get_table_columns
       (run_ddl (sync_schema scenario_a_test scenario_a_prod) scenario_a_prod)
       "orders"
     = [("id", "integer"); ("dummy_field", "character varying")].
Proof. repeat split; reflexivity. Qed.

(** C5 (the code departs from it). After the schema run of Scenario A has
    been applied to the target, a second run is not empty: it adds the
    column total to the table orders the first run created. *)
Theorem second_schema_run_adds_column :
  map call_args
    (sync_schema scenario_a_test
       (run_ddl (sync_schema scenario_a_test scenario_a_prod) scenario_a_prod))
  = [ Some ("ALTER TABLE orders ADD COLUMN total NUMERIC;", []); None ].
Proof. reflexivity. Qed.

(** C8. The type mapping: 'character varying' gives 'VARCHAR(255)',
    'integer' gives 'INTEGER', 'boolean' gives 'BOOLEAN', and every other
    tag gives the tag in upper case. *)
Theorem map_type_to_postgres_spec :
  _map_type_to_postgres "character varying" = "VARCHAR(255)"
  /\ _map_type_to_postgres "integer" = "INTEGER"
  /\ _map_type_to_postgres "boolean" = "BOOLEAN"
  /\ (forall data_type : string,
        data_type <> "character varying" -> data_type <> "integer" ->
        data_type <> "boolean" ->
        _map_type_to_postgres data_type = upper data_type).
Proof.
  repeat split; try reflexivity.
  intros data_type H1 H2 H3. unfold _map_type_to_postgres.
  apply String.eqb_neq in H1, H2, H3. rewrite H1, H2, H3. reflexivity.
Qed.

Lemma map_type_to_postgres_spec_witness :
  _map_type_to_postgres "timestamp without time zone"
  = "TIMESTAMP WITHOUT TIME ZONE".
Proof.
  apply (proj2 (proj2 (proj2 map_type_to_postgres_spec))); discriminate.
Defined.

(** C9, as stated, fails: the record {id:5} has the identity field, yet no
    UPDATE is issued for it; the batch is only committed. *)
Lemma no_update_for_identity_only_record :
  map call_args (update_records "my_table" [ [("id", VInt 5)] ])
  <> updates_as_specified "my_table" [ [("id", VInt 5)] ].
Proof. discriminate. Qed.

(** C9, amended. For every non-empty update list, [update_records] issues,
    for each record that has the identity field and at least one other
    field, exactly one UPDATE whose SET clause names the non-identity fields
    of the record in the record's order, the identity value bound last;
    every other record is skipped; one commit follows the batch. *)
Theorem update_records_spec (table_name : string) (records : list record) :
  records <> [] ->
  map call_args (update_records table_name records)
  = map (update_args table_name) (filter updatable records) ++ [None].
Proof.
  intros Hne. unfold update_records.
  destruct records as [ | r rest]; [congruence | ].
  rewrite map_app, update_loop_args. reflexivity.
Qed.

(** Scenario D. *)
Lemma update_records_spec_witness :
  scenario_d_records <> []
  /\ map call_args (update_records "my_table" scenario_d_records)
     = [ Some ("UPDATE my_table SET name = %s, desc = %s WHERE id = %s",
               [VStr "UpdatedName10"; VStr "NewDesc10"; VInt 10]);
         Some ("UPDATE my_table SET name = %s WHERE id = %s",
               [VStr "UpdatedName20"; VInt 20]);
         None ].
Proof.
  split; [discriminate | ].
  exact (@update_records_spec "my_table" scenario_d_records
           ltac:(discriminate)).
Defined.

(** C10. A record whose only field is the identity field is skipped by
    [update_records]: the calls the cursor receives are exactly the UPDATEs
    of the records before and after it in the batch that have the identity
    field and another field, each with its own text and bound values, and
    then the one commit; no call is made for the record itself and no error
    is raised. *)
Theorem update_records_skips_identity_only (table_name : string)
    (before after : list record) (r : record) :
  keys r = ["id"] ->
  map call_args (update_records table_name (before ++ r :: after))
  = map (update_args table_name) (filter updatable before)
    ++ map (update_args table_name) (filter updatable after)
    ++ [None].
Proof.
  intros Hk.
  assert (Hr : updatable r = false).
  { unfold updatable. rewrite Hk. simpl. apply andb_false_r. }
  unfold update_records.
  destruct (before ++ r :: after) eqn:E.
  - destruct before; discriminate.
  - rewrite <- E, map_app, update_loop_args, filter_app. simpl.
    rewrite Hr, map_app, <- app_assoc. reflexivity.
Qed.

Lemma update_records_skips_identity_only_witness :
  map call_args
    (update_records "my_table"
       ([ [("id", VInt 10); ("name", VStr "UpdatedName10")] ]
          ++ [("id", VInt 15)]
          :: [ [("id", VInt 20); ("name", VStr "UpdatedName20")] ]))
  = [ Some ("UPDATE my_table SET name = %s WHERE id = %s",
            [VStr "UpdatedName10"; VInt 10]);
      Some ("UPDATE my_table SET name = %s WHERE id = %s",
            [VStr "UpdatedName20"; VInt 20]);
      None ].
Proof.
  exact (@update_records_skips_identity_only "my_table"
           [ [("id", VInt 10); ("name", VStr "UpdatedName10")] ]
           [ [("id", VInt 20); ("name", VStr "UpdatedName20")] ]
           [("id", VInt 15)] eq_refl).
Defined.

(** ** Further properties of the Record Differ *)

Lemma needs_update_known (prod_records : list record) (r : record) :
  needs_update (prod_dict prod_records) r = true ->
  set_mem (get_id r) (prod_ids prod_records) = true.
Proof.
  unfold needs_update. rewrite prod_dict_matched, set_mem_prod_ids.
  destruct (matched prod_records (get_id r)) as [t | ] eqn:E;
    [ | discriminate].
  intros _. apply existsb_carries_matched. eauto.
Qed.

Lemma filter_exclusive_length (A : Type) (f g : A -> bool) (l : list A) :
  (forall x, g x = true -> f x = false) ->
  List.length (filter f l) + List.length (filter g l) <= List.length l.
Proof.
  intros H. induction l as [ | x l IH]; simpl; auto.
  destruct (g x) eqn:Hg.
  - rewrite (H x Hg). simpl. lia.
  - destruct (f x); simpl; lia.
Qed.

Lemma nothing_in_nil (A : Type) (l : list A) :
  (forall x, ~ In x l) -> l = [].
Proof.
  destruct l as [ | x l]; auto. intros H. exfalso. apply (H x). simpl. auto.
Qed.

(** X1. No record is both inserted and updated. *)
Theorem plan_sets_disjoint (test_records prod_records : list record)
    (r : record) :
  In r (calculate_inserts test_records prod_records) ->
  ~ In r (calculate_updates test_records prod_records).
Proof.
  intros Hi Hu.
  apply in_calculate_inserts in Hi. apply in_calculate_updates in Hu.
  destruct Hi as [_ Hn]. destruct Hu as [_ (t & Ht & _)]. congruence.
Qed.

Lemma plan_sets_disjoint_witness :
  ~ In [("id", VInt 2); ("name", VStr "TestName2")]
       (calculate_updates scenario_b_test scenario_b_prod).
Proof.
  apply plan_sets_disjoint. simpl. auto.
Defined.

(** X2. The plan holds source records only, and never more of them than
    the source has. *)
Theorem plan_within_source (test_records prod_records : list record) :
  incl (calculate_inserts test_records prod_records) test_records
  /\ incl (calculate_updates test_records prod_records) test_records
  /\ List.length (calculate_inserts test_records prod_records)
     + List.length (calculate_updates test_records prod_records)
     <= List.length test_records.
Proof.
  split; [ | split].
  - intros r Hr. apply in_calculate_inserts in Hr. tauto.
  - intros r Hr. apply in_calculate_updates in Hr. tauto.
  - unfold calculate_inserts, calculate_updates.
    rewrite inserts_loop_filter, updates_loop_filter.
    apply filter_exclusive_length.
    intros r Hr. apply needs_update_known in Hr. rewrite Hr. reflexivity.
Qed.

(** X3. Against an empty target every source record is inserted, also one
    without the identity field, none is updated, and the calls of the
    reconciliation are those of [insert_records] on the whole source. *)
Theorem sync_into_empty_table (table_name : string)
    (test_records : list record) :
  calculate_inserts test_records [] = test_records
  /\ calculate_updates test_records [] = []
  /\ sync_table table_name test_records []
     = insert_records table_name test_records.
Proof.
  assert (Hi : calculate_inserts test_records [] = test_records).
  { unfold calculate_inserts. simpl.
    induction test_records as [ | r rest IH]; simpl; auto.
    rewrite IH. reflexivity. }
  assert (Hu : calculate_updates test_records [] = []).
  { clear Hi. unfold calculate_updates, prod_dict. simpl.
    induction test_records as [ | r rest IH]; simpl; auto. }
  split; [exact Hi | split; [exact Hu | ]].
  unfold sync_table. rewrite Hi, Hu. simpl. apply app_nil_r.
Qed.

(** X4. Two equal record sets whose records are dicts that all carry the
    identity field, with pairwise different identities, give an empty plan,
    and the executor issues no call at all. *)
Theorem plan_of_equal_sets_is_empty (table_name : string)
    (records : list record) :
  unique_ids records ->
  (forall r, In r records -> wf_dict r /\ contains r "id" = true) ->
  calculate_inserts records records = []
  /\ calculate_updates records records = []
  /\ sync_table table_name records records = [].
Proof.
  intros Hu Hall.
  assert (Hid : forall r, In r records -> has_identity r (get_id r)).
  { intros r Hr. destruct (Hall r Hr) as [_ Hc].
    unfold contains in Hc. unfold has_identity, get_id.
    destruct (dict_get r "id") as [i | ]; [ | discriminate].
    exists i. split; auto. apply py_eq_refl. }
  assert (Hi : calculate_inserts records records = []).
  { apply nothing_in_nil. intros r Hr.
    apply in_calculate_inserts in Hr. destruct Hr as [Hr Hn].
    rewrite matched_none in Hn. apply (Hn r Hr). apply Hid. exact Hr. }
  assert (Hup : calculate_updates records records = []).
  { apply nothing_in_nil. intros r Hr.
    apply in_calculate_updates in Hr.
    destruct Hr as [Hr (t & Ht & (k & v & pv & Hkv & _ & Hg & Hd))].
    apply matched_some in Ht. destruct Ht as [Ht Htid].
    assert (t = r).
    { apply unique_ids_eq with (rs := records) (k := get_id r); auto. }
    subst t. destruct (Hall r Hr) as [Hwf _].
    rewrite (@in_dict_get value r k v Hwf Hkv) in Hg. inversion Hg; subst.
    unfold py_ne in Hd. rewrite py_eq_refl in Hd. discriminate. }
  split; [exact Hi | split; [exact Hup | ]].
  unfold sync_table. rewrite Hi, Hup. reflexivity.
Qed.

Lemma plan_of_equal_sets_is_empty_witness :
  calculate_inserts scenario_b_test scenario_b_test = []
  /\ calculate_updates scenario_b_test scenario_b_test = []
  /\ sync_table "some_ref_table" scenario_b_test scenario_b_test = [].
Proof.
  apply plan_of_equal_sets_is_empty.
  - simpl. split; [ | split; [ | exact I]].
    + intros i Hi t [<- | []] (j & Hj & Hij).
      inversion Hi; subst. inversion Hj; subst. discriminate.
    + intros i Hi t [].
  - intros r [<- | [<- | []]]; (split; [ | reflexivity]);
      unfold wf_dict; simpl; repeat constructor; simpl; intuition discriminate.
Defined.

(** ** Running the reconciliation again *)

Lemma reconciled_row_exists (test_records prod_records : list record)
    (r : record) (k : value) :
  In r test_records -> dict_get r "id" = Some k ->
  exists row,
    In row (map (apply_updates (calculate_updates test_records prod_records))
                (prod_records ++ calculate_inserts test_records prod_records))
    /\ has_identity row k.
Proof.
  intros Hr Hk.
  assert (Hex : exists row,
             In row (prod_records
                       ++ calculate_inserts test_records prod_records)
             /\ has_identity row k).
  { destruct (matched prod_records k) as [t | ] eqn:Hm.
    - apply matched_some in Hm. destruct Hm as [Hin Hid].
      exists t. split; auto. apply in_or_app. auto.
    - exists r. split.
      + apply in_or_app. right. apply in_calculate_inserts. split; auto.
        unfold get_id. rewrite Hk. exact Hm.
      + exists k. split; auto. apply py_eq_refl. }
  destruct Hex as (row & Hin & (i & Hi & Hik)).
  exists (apply_updates (calculate_updates test_records prod_records) row).
  split.
  - apply in_map. exact Hin.
  - exists i. split; auto. rewrite apply_updates_id. exact Hi.
Qed.

(** X5. On reconcilable record sets the reconciliation is idempotent: once
    the plan has been applied, the plan computed against the new target is
    empty and a second run issues no call. *)
Theorem second_reconciliation_is_empty (table_name : string)
    (test_records prod_records : list record) :
  reconcilable test_records prod_records ->
  calculate_inserts test_records
    (reconcile table_name test_records prod_records) = []
  /\ calculate_updates test_records
       (reconcile table_name test_records prod_records) = []
  /\ sync_table table_name test_records
       (reconcile table_name test_records prod_records) = [].
Proof.
  intros (Hus & Hup & Hall).
  assert (Hi : calculate_inserts test_records
                 (reconcile table_name test_records prod_records) = []).
  { apply nothing_in_nil. intros r Hr.
    apply in_calculate_inserts in Hr. destruct Hr as [Hr Hn].
    destruct (Hall r Hr) as (_ & (k & Hk & _) & _).
    destruct (@reconciled_row_exists test_records prod_records r k Hr Hk)
      as (row & Hrow & Hid).
    rewrite matched_none, reconcile_rows in Hn.
    apply (Hn row Hrow). unfold get_id. rewrite Hk. exact Hid. }
  assert (Hu : calculate_updates test_records
                 (reconcile table_name test_records prod_records) = []).
  { apply nothing_in_nil. intros r Hr.
    apply in_calculate_updates in Hr.
    destruct Hr as [Hr (t & Ht & (f & v & pv & Hfv & _ & Hg & Hd))].
    destruct (Hall r Hr) as (Hwf & (k & Hk & Hnn) & Hfields).
    assert (Hgk : get_id r = k) by (unfold get_id; rewrite Hk; reflexivity).
    rewrite Hgk in Ht, Hfields.
    apply matched_some in Ht. destruct Ht as [Ht Hid].
    rewrite reconcile_rows in Ht.
    apply in_map_iff in Ht. destruct Ht as (row & <- & Hrow).
    assert (Hag : agrees r
              (apply_updates
                 (calculate_updates test_records prod_records) row)).
    { eapply reconciled_row_agrees; eauto.
      destruct Hid as (i & Hi' & Hik). exists i. split; auto.
      rewrite apply_updates_id in Hi'. exact Hi'. }
    destruct (Hag f v (@in_dict_get value r f v Hwf Hfv)) as (tv & Htv & He).
    assert (tv = pv) by congruence. subst tv.
    unfold py_ne in Hd. rewrite He in Hd. discriminate. }
  split; [exact Hi | split; [exact Hu | ]].
  unfold sync_table. rewrite Hi, Hu. reflexivity.
Qed.

Lemma second_reconciliation_is_empty_witness :
  calculate_inserts scenario_b_test
    (reconcile "some_ref_table" scenario_b_test scenario_b_prod) = []
  /\ calculate_updates scenario_b_test
       (reconcile "some_ref_table" scenario_b_test scenario_b_prod) = []
  /\ sync_table "some_ref_table" scenario_b_test
       (reconcile "some_ref_table" scenario_b_test scenario_b_prod) = [].
Proof.
  apply second_reconciliation_is_empty.
  split; [ | split].
  - simpl. split; [ | split; [ | exact I]].
    + intros i Hi t [<- | []] (j & Hj & Hij).
      inversion Hi; subst. inversion Hj; subst. discriminate.
    + intros i Hi t [].
  - simpl. split; [ | exact I]. intros i Hi t [].
  - intros r [<- | [<- | []]]; (split; [ | split]).
    + unfold wf_dict. simpl. repeat constructor; simpl; intuition discriminate.
    + exists (VInt 1). split; [reflexivity | discriminate].
    + intros t [<- | []] _ f. rewrite !contains_keys. simpl. tauto.
    + unfold wf_dict. simpl. repeat constructor; simpl; intuition discriminate.
    + exists (VInt 2). split; [reflexivity | discriminate].
    + intros t [<- | []] _ f. rewrite !contains_keys. simpl. tauto.
Defined.

(** ** Further properties of the Upsert Executor *)

Lemma update_call_statement (table_name : string) (r : record)
    (tn : string) (cols : list string) (vals : list value) (rid : value) :
  In (UpdateById tn cols vals rid) (statements (update_call table_name r)) ->
  tn = table_name /\ dict_get r "id" = Some rid
  /\ set_items (items r) <> []
  /\ cols = keys (set_items (items r))
  /\ vals = values (set_items (items r)).
Proof.
  unfold update_call.
  destruct (dict_get r "id") as [i | ]; [ | intros []].
  destruct (set_items (items r)) as [ | kv sets] eqn:E; [intros [] | ].
  intros [H | []]. inversion H; subst. repeat split; auto. discriminate.
Qed.

Lemma update_records_statements (table_name : string)
    (records : list record) :
  statements (update_records table_name records)
  = statements (update_loop table_name records).
Proof.
  unfold update_records. destruct records as [ | r rest]; auto.
  rewrite statements_app. simpl. apply app_nil_r.
Qed.

(** X6. Every UPDATE that [update_records] issues is for the given table,
    has a SET clause that is not empty and does not assign the identity
    column, binds one value per assigned column, and assigns exactly the
    non-identity fields of a record of the batch whose identity it binds in
    the WHERE clause. *)
Theorem update_statements_are_well_formed (table_name : string)
    (records : list record) (tn : string) (cols : list string)
    (vals : list value) (rid : value) :
  In (UpdateById tn cols vals rid)
     (statements (update_records table_name records)) ->
  tn = table_name /\ cols <> [] /\ ~ In "id" cols
  /\ List.length cols = List.length vals
  /\ exists r, In r records /\ dict_get r "id" = Some rid
       /\ forall c v, In (c, v) (combine cols vals)
                      <-> In (c, v) (items r) /\ c <> "id".
Proof.
  rewrite update_records_statements.
  induction records as [ | r rest IH]; simpl; [tauto | ].
  rewrite statements_app. intros H. apply in_app_or in H.
  destruct H as [H | H].
  - apply update_call_statement in H.
    destruct H as (Ht & Hid & Hne & Hc & Hv). subst.
    split; [reflexivity | split; [ | split; [ | split]]].
    + intros E. apply Hne. destruct (set_items (items r)); auto.
      discriminate.
    + apply set_items_no_id.
    + unfold keys, values. rewrite !length_map. reflexivity.
    + exists r. split; [auto | split; [exact Hid | ]].
      intros c v. rewrite combine_keys_values. apply in_set_items.
  - destruct (IH H) as (Ht & Hc & Hn & Hl & (r' & Hr' & Hid & Hf)).
    repeat split; auto. exists r'. auto.
Qed.

Lemma update_statements_are_well_formed_witness :
  "my_table" = "my_table" /\ ["name"; "desc"] <> [] /\ ~ In "id" ["name"; "desc"]
  /\ List.length ["name"; "desc"]
     = List.length [VStr "UpdatedName10"; VStr "NewDesc10"]
  /\ exists r, In r scenario_d_records /\ dict_get r "id" = Some (VInt 10)
       /\ forall c v,
            In (c, v) (combine ["name"; "desc"]
                         [VStr "UpdatedName10"; VStr "NewDesc10"])
            <-> In (c, v) (items r) /\ c <> "id".
Proof.
  apply (@update_statements_are_well_formed "my_table" scenario_d_records).
  simpl. auto.
Defined.

(** X7. A row of the target keeps its identity through the
    reconciliation: the row at its place afterwards has the same value of
    the identity field, or still has none. *)
Theorem reconcile_keeps_identities (table_name : string)
    (test_records prod_records : list record) (n : nat) (row : record) :
  nth_error prod_records n = Some row ->
  exists row',
    nth_error (reconcile table_name test_records prod_records) n = Some row'
    /\ dict_get row' "id" = dict_get row "id".
Proof.
  intros Hn.
  exists (apply_updates (calculate_updates test_records prod_records) row).
  split.
  - rewrite reconcile_rows, nth_error_map, nth_error_app1.
    + rewrite Hn. reflexivity.
    + apply nth_error_Some. congruence.
  - apply apply_updates_id.
Qed.

(** The target row of Scenario B is updated and keeps the identity 1. *)
Lemma reconcile_keeps_identities_witness :
  exists row',
    nth_error (reconcile "some_ref_table" scenario_b_test scenario_b_prod) 0
    = Some row'
    /\ dict_get row' "id"
       = dict_get [("id", VInt 1); ("name", VStr "OldName")] "id".
Proof.
  apply reconcile_keeps_identities. reflexivity.
Defined.

Lemma contains_dict_set (V : Type) (d : dict V) (k f : string) (v : V) :
  contains d f = true -> contains (dict_set d k v) f = true.
Proof.
  unfold contains. rewrite dict_get_set.
  destruct (String.eqb k f); auto.
Qed.

Lemma contains_assign (sets : list (string * value)) (row : record)
    (f : string) :
  contains row f = true -> contains (assign row sets) f = true.
Proof.
  unfold assign. revert row.
  induction sets as [ | [k v] sets IH]; intros row H; simpl; auto.
  apply IH. apply contains_dict_set. exact H.
Qed.

Lemma touch_contains (u row : record) (f : string) :
  contains row f = true -> contains (touch u row) f = true.
Proof.
  intros H. unfold touch.
  destruct (dict_get u "id") as [rid | ]; auto.
  destruct (set_items (items u)) as [ | kv sets]; auto.
  unfold update_row. destruct (dict_get row "id") as [i | ]; auto.
  destruct (sql_eq i rid); auto. apply contains_assign. exact H.
Qed.

Lemma get_id_touch (u row : record) : get_id (touch u row) = get_id row.
Proof. unfold get_id. rewrite touch_id. reflexivity. Qed.

Lemma touch_keeps (u row : record) (f : string) :
  (has_identity u (get_id row) -> contains u f = false) ->
  dict_get (touch u row) f = dict_get row f.
Proof.
  intros H. unfold touch.
  destruct (dict_get u "id") as [rid | ] eqn:Hu; auto.
  destruct (set_items (items u)) as [ | kv sets] eqn:E; auto.
  rewrite <- E. unfold update_row.
  destruct (dict_get row "id") as [i | ] eqn:Hi; auto.
  destruct (sql_eq i rid) eqn:Hm; auto.
  apply assign_other. rewrite set_items_keys, filter_In. intros [Hin _].
  assert (Hc : contains u f = false).
  { apply H. unfold get_id. rewrite Hi. exists rid. split; auto.
    rewrite py_eq_sym. apply sql_eq_py_eq. exact Hm. }
  apply contains_keys in Hin. unfold items in Hin. congruence.
Qed.

Lemma apply_updates_contains (us : list record) (row : record) (f : string) :
  contains row f = true -> contains (apply_updates us row) f = true.
Proof.
  unfold apply_updates. revert row.
  induction us as [ | u us IH]; intros row H; simpl; auto.
  apply IH. apply touch_contains. exact H.
Qed.

Lemma apply_updates_keeps (us : list record) (row : record) (f : string) :
  (forall u, In u us -> has_identity u (get_id row) -> contains u f = false) ->
  dict_get (apply_updates us row) f = dict_get row f.
Proof.
  unfold apply_updates. revert row.
  induction us as [ | u us IH]; intros row H; simpl; auto.
  rewrite IH.
  - apply touch_keeps. apply H. simpl. auto.
  - intros u' Hu'. rewrite get_id_touch. apply H. simpl. auto.
Qed.

(** X8. A target row keeps its place and all its fields; a field that no
    source record of the row's identity has keeps its value. *)
Theorem target_fields_are_kept (table_name : string)
    (test_records prod_records : list record) (n : nat) (row : record) :
  nth_error prod_records n = Some row ->
  exists row',
    nth_error (reconcile table_name test_records prod_records) n = Some row'
    /\ (forall f, contains row f = true -> contains row' f = true)
    /\ (forall f,
          (forall r, In r test_records -> has_identity r (get_id row) ->
             contains r f = false) ->
          dict_get row' f = dict_get row f).
Proof.
  intros Hn.
  exists (apply_updates (calculate_updates test_records prod_records) row).
  split; [ | split].
  - rewrite reconcile_rows, nth_error_map, nth_error_app1.
    + rewrite Hn. reflexivity.
    + apply nth_error_Some. congruence.
  - intros f. apply apply_updates_contains.
  - intros f H. apply apply_updates_keeps.
    intros u Hu. apply H. apply in_calculate_updates in Hu. tauto.
Qed.

(** The field note of the target row of Scenario B survives the update of
    its name. *)
Lemma target_fields_are_kept_witness :
  exists row',
    nth_error
      (reconcile "some_ref_table" scenario_b_test
         [ [("id", VInt 1); ("name", VStr "OldName"); ("note", VStr "n")] ])
      0 = Some row'
    /\ (forall f,
          contains [("id", VInt 1); ("name", VStr "OldName");
                    ("note", VStr "n")] f = true ->
          contains row' f = true)
    /\ (forall f,
          (forall r, In r scenario_b_test ->
             has_identity r
               (get_id [("id", VInt 1); ("name", VStr "OldName");
                        ("note", VStr "n")]) ->
             contains r f = false) ->
          dict_get row' f
          = dict_get [("id", VInt 1); ("name", VStr "OldName");
                      ("note", VStr "n")] f).
Proof.
  apply target_fields_are_kept. reflexivity.
Defined.

Lemma update_loop_executes (table_name : string) (records : list record) :
  update_loop table_name records
  = map Execute (statements (update_loop table_name records)).
Proof.
  induction records as [ | r rest IH]; simpl; auto.
  rewrite statements_app, map_app, <- IH. f_equal.
  unfold update_call. destruct (dict_get r "id"); auto.
  destruct (set_items (items r)); auto.
Qed.

Lemma update_loop_count (table_name : string) (records : list record) :
  List.length (statements (update_loop table_name records))
  <= List.length records.
Proof.
  induction records as [ | r rest IH]; simpl; auto.
  rewrite statements_app, length_app.
  assert (List.length (statements (update_call table_name r)) <= 1).
  { unfold update_call. destruct (dict_get r "id"); simpl; auto.
    destruct (set_items (items r)); simpl; auto. }
  lia.
Qed.

Lemma insert_calls_statements (table_name : string) (records : list record) :
  statements (map (insert_call table_name) records)
  = map (fun r => InsertInto table_name (keys r) (values r)) records.
Proof.
  induction records as [ | r rest IH]; simpl; auto.
  rewrite IH. reflexivity.
Qed.

(** X9. A batch is a run of statements closed by one commit: a non-empty
    batch issues its statements and then commits once, also when every
    record of an update batch was skipped; an empty batch issues no call.
    There is one INSERT for each record and at most one UPDATE for each. *)
Theorem batches_commit_once (table_name : string) (records : list record) :
  insert_records table_name records
  = map Execute (statements (insert_records table_name records))
    ++ match records with [] => [] | _ => [Commit] end
  /\ update_records table_name records
     = map Execute (statements (update_records table_name records))
       ++ match records with [] => [] | _ => [Commit] end
  /\ List.length (statements (insert_records table_name records))
     = List.length records
  /\ List.length (statements (update_records table_name records))
     <= List.length records.
Proof.
  destruct records as [ | r rest].
  - repeat split; auto.
  - split; [ | split; [ | split]].
    + unfold insert_records. rewrite statements_app. simpl statements at 2.
      rewrite app_nil_r, insert_calls_statements, map_map. reflexivity.
    + rewrite update_records_statements. unfold update_records.
      rewrite <- update_loop_executes. reflexivity.
    + unfold insert_records. rewrite statements_app. simpl statements at 2.
      rewrite app_nil_r, insert_calls_statements, length_map. reflexivity.
    + rewrite update_records_statements. apply update_loop_count.
Qed.

(** ** The Record Loader *)

Lemma dict_set_keys_new (V : Type) (d : dict V) (k : string) (v : V) :
  ~ In k (keys d) -> dict_set d k v = d ++ [(k, v)].
Proof.
  induction d as [ | [k0 v0] d IH]; simpl; auto.
  intros H. destruct (String.eqb k0 k) eqn:E.
  - apply String.eqb_eq in E. tauto.
  - f_equal. apply IH. tauto.
Qed.

Lemma dict_of_from_distinct (V : Type) (pairs : list (string * V))
    (d : dict V) :
  NoDup (keys d ++ keys pairs) ->
  fold_left (fun d kv => dict_set d (fst kv) (snd kv)) pairs d = d ++ pairs.
Proof.
  revert d. induction pairs as [ | [k v] pairs IH]; intros d H; simpl.
  - rewrite app_nil_r. reflexivity.
  - simpl in H.
    assert (Hn : ~ In k (keys d)).
    { intros Hin. apply NoDup_remove_2 in H. apply H.
      apply in_or_app. auto. }
    rewrite dict_set_keys_new by exact Hn.
    rewrite IH.
    + rewrite <- app_assoc. reflexivity.
    + unfold keys in *. rewrite map_app, <- app_assoc. exact H.
Qed.

Lemma keys_combine (V : Type) (ks : list string) (vs : list V) :
  List.length ks = List.length vs -> keys (combine ks vs) = ks.
Proof.
  revert vs. induction ks as [ | k ks IH]; intros [ | v vs] H; simpl in *;
    try discriminate; auto.
  f_equal. apply IH. lia.
Qed.

Lemma values_combine (V : Type) (ks : list string) (vs : list V) :
  List.length ks = List.length vs -> values (combine ks vs) = vs.
Proof.
  revert vs. induction ks as [ | k ks IH]; intros [ | v vs] H; simpl in *;
    try discriminate; auto.
  f_equal. apply IH. lia.
Qed.

(** X11. With pairwise different column names and rows of the width of the
    description, [load_reference_data] pairs each column with its value in
    column order, and the INSERT that [insert_records] builds from a loaded
    record names the columns of the description and binds the values of the
    row. *)
Theorem load_then_insert (table_name : string) (description : list string)
    (fetched : list (list value)) :
  NoDup description ->
  (forall row, In row fetched -> List.length row = List.length description) ->
  load_reference_data description fetched
  = map (combine description) fetched
  /\ statements
       (insert_records table_name (load_reference_data description fetched))
     = map (InsertInto table_name description) fetched.
Proof.
  intros Hnd Hlen.
  assert (Hload : forall row, In row fetched ->
             dict_of (combine description row) = combine description row).
  { intros row Hrow. unfold dict_of.
    rewrite dict_of_from_distinct; auto. simpl.
    rewrite keys_combine; auto.
    symmetry. apply Hlen. exact Hrow. }
  assert (H1 : load_reference_data description fetched
               = map (combine description) fetched).
  { unfold load_reference_data. apply map_ext_in. exact Hload. }
  split; [exact H1 | ].
  rewrite H1. unfold insert_records.
  destruct (map (combine description) fetched) eqn:E.
  - destruct fetched; [reflexivity | discriminate].
  - rewrite <- E, statements_app. simpl statements at 2.
    rewrite app_nil_r, insert_calls_statements, map_map.
    apply map_ext_in. intros row Hrow.
    rewrite keys_combine, values_combine; auto;
      symmetry; apply Hlen; exact Hrow.
Qed.

Lemma load_then_insert_witness :
  load_reference_data ["id"; "name"]
    [ [VInt 1; VStr "Alpha"]; [VInt 2; VStr "Beta"] ]
  = map (combine ["id"; "name"])
      [ [VInt 1; VStr "Alpha"]; [VInt 2; VStr "Beta"] ]
  /\ statements
       (insert_records "my_table"
          (load_reference_data ["id"; "name"]
             [ [VInt 1; VStr "Alpha"]; [VInt 2; VStr "Beta"] ]))
     = map (InsertInto "my_table" ["id"; "name"])
         [ [VInt 1; VStr "Alpha"]; [VInt 2; VStr "Beta"] ].
Proof.
  apply load_then_insert.
  - repeat constructor; simpl; intuition discriminate.
  - intros row [<- | [<- | []]]; reflexivity.
Defined.

(** ** Further properties of the schema run *)

Lemma wf_schema_witness : wf_schema scenario_a_test.
Proof.
  intros t cols [H | [H | []]]; inversion H; subst;
    unfold wf_dict; simpl; repeat constructor; simpl; intuition discriminate.
Qed.

Lemma sync_schema_idempotent_without_creation_witness :
  sync_schema scenario_a_test
    (run_ddl
       (sync_schema scenario_a_test
          [ ("users", [("id", "bigint")]); ("orders", [("id", "integer")]) ])
       [ ("users", [("id", "bigint")]); ("orders", [("id", "integer")]) ])
  = [].
Proof.
  apply sync_schema_idempotent_without_creation.
  - exact wf_schema_witness.
  - intros t [<- | [<- | []]]; reflexivity.
Defined.

Lemma run_create_calls (missing_tables : list string) (conn : schema)
    (t : string) :
  dict_get (run_ddl (create_calls missing_tables) conn) t
  = match dict_get conn t with
    | Some cols => Some cols
    | None => if mem t missing_tables then Some created_columns else None
    end.
Proof.
  revert conn. induction missing_tables as [ | t0 rest IH]; intros conn.
  - simpl. destruct (dict_get conn t); reflexivity.
  - change (run_ddl (create_calls (t0 :: rest)) conn)
      with (run_ddl (create_calls rest) (exec_ddl (CreateTable t0) conn)).
    rewrite IH. cbn [exec_ddl mem existsb].
    rewrite mem_get_tables. unfold contains.
    destruct (dict_get conn t0) as [c0 | ] eqn:E0.
    + destruct (dict_get conn t) as [c | ] eqn:E; auto.
      destruct (String.eqb t t0) eqn:Et; auto.
      apply String.eqb_eq in Et. subst t0. congruence.
    + rewrite dict_get_snoc.
      destruct (dict_get conn t) as [c | ] eqn:E; auto.
      rewrite (String.eqb_sym t0 t).
      destruct (String.eqb t t0); simpl; auto.
Qed.

Lemma contains_after_sync (test_conn prod_conn : schema) (t : string) :
  In t (_get_tables test_conn) ->
  contains (run_ddl (sync_schema test_conn prod_conn) prod_conn) t = true.
Proof.
  intros Hin. unfold sync_schema.
  rewrite run_ddl_app, <- mem_get_tables, common_loop_tables, mem_get_tables.
  unfold contains. rewrite run_create_calls.
  destruct (dict_get prod_conn t) as [c | ] eqn:E; auto.
  assert (Hm : mem t (filter (fun t0 => negb (mem t0 (_get_tables prod_conn)))
                         (_get_tables test_conn)) = true).
  { unfold mem at 1. apply existsb_exists. exists t. split.
    - apply filter_In. split; auto.
      rewrite mem_get_tables. unfold contains. rewrite E. reflexivity.
    - apply String.eqb_refl. }
  rewrite Hm. reflexivity.
Qed.

(** X13. After a schema run has been applied, the target has every table of
    the source, and a table that both sides had before the run has every
    column of the source table with the type tag of the source. *)
Theorem sync_schema_completes_target (test_conn prod_conn : schema)
    (t : string) :
  wf_schema test_conn ->
  In t (_get_tables test_conn) ->
  mem t (_get_tables (run_ddl (sync_schema test_conn prod_conn) prod_conn))
  = true
  /\ (mem t (_get_tables prod_conn) = true ->
      synced test_conn
        (run_ddl (sync_schema test_conn prod_conn) prod_conn) t).
Proof.
  intros Hwf Hin. split.
  - rewrite mem_get_tables. apply contains_after_sync. exact Hin.
  - intros Hm. unfold sync_schema. rewrite run_ddl_app.
    apply common_loop_synced.
    + intros t0 _. apply wf_schema_columns. exact Hwf.
    + intros t0 H0. apply filter_In in H0. destruct H0 as [_ H0].
      rewrite mem_get_tables in H0. unfold contains in *.
      rewrite run_create_calls.
      destruct (dict_get prod_conn t0); [reflexivity | discriminate].
    + apply filter_In. auto.
Qed.

Lemma sync_schema_completes_target_witness :
  mem "users"
    (_get_tables
       (run_ddl
          (sync_schema scenario_a_test [ ("users", [("id", "bigint")]) ])
          [ ("users", [("id", "bigint")]) ]))
  = true
  /\ (mem "users" (_get_tables [ ("users", [("id", "bigint")]) ]) = true ->
      synced scenario_a_test
        (run_ddl
           (sync_schema scenario_a_test [ ("users", [("id", "bigint")]) ])
           [ ("users", [("id", "bigint")]) ])
        "users").
Proof.
  apply sync_schema_completes_target.
  - exact wf_schema_witness.
  - simpl. auto.
Defined.

(** X14. Whatever the target catalog is, the third run of [sync_schema] is
    empty: the first run creates the missing tables, the second completes
    their columns, and then nothing is left to do. *)
Theorem sync_schema_settles_in_two_runs (test_conn prod_conn : schema) :
  wf_schema test_conn ->
  let once := run_ddl (sync_schema test_conn prod_conn) prod_conn in
  let twice := run_ddl (sync_schema test_conn once) once in
  sync_schema test_conn twice = [].
Proof.
  intros Hwf once twice. apply sync_schema_settles; auto.
  intros t Ht. rewrite mem_get_tables. apply contains_after_sync. exact Ht.
Qed.

Lemma sync_schema_settles_in_two_runs_witness :
  let once := run_ddl (sync_schema scenario_a_test scenario_a_prod)
                      scenario_a_prod in
  let twice := run_ddl (sync_schema scenario_a_test once) once in
  sync_schema scenario_a_test twice = [].
Proof.
  apply sync_schema_settles_in_two_runs. exact wf_schema_witness.
Defined.

Lemma columns_on_table (t : string) (f : table_columns -> table_columns)
    (conn : schema) (t' : string) :
  _get_table_columns (on_table t f conn) t'
  = if String.eqb t' t
    then match dict_get conn t' with Some cols => f cols | None => [] end
    else _get_table_columns conn t'.
Proof.
  unfold _get_table_columns. rewrite dict_get_on_table.
  destruct (dict_get conn t'); destruct (String.eqb t' t); reflexivity.
Qed.

Lemma get_with_column_other (cols : table_columns) (c ty c' : string) :
  c <> c' -> dict_get (with_column c ty cols) c' = dict_get cols c'.
Proof.
  intros H. apply String.eqb_neq in H. unfold with_column.
  destruct (contains cols c); auto.
  rewrite dict_get_snoc, H. destruct (dict_get cols c'); reflexivity.
Qed.

Lemma get_with_type_other (cols : table_columns) (c ty c' : string) :
  c <> c' -> dict_get (with_type c ty cols) c' = dict_get cols c'.
Proof.
  intros H. apply String.eqb_neq in H. unfold with_type.
  destruct (contains cols c); auto.
  rewrite dict_get_set, H. reflexivity.
Qed.

(** The statements for one table leave alone the columns the source table
    does not have. *)
Lemma structure_loop_keeps (t : string) (pc : table_columns)
    (its : list (string * string)) (conn : schema) (c : string) :
  ~ In c (keys its) ->
  dict_get (_get_table_columns (run_ddl (structure_loop t pc its) conn) t) c
  = dict_get (_get_table_columns conn t) c.
Proof.
  assert (Hstep : forall f cn,
             (forall cols, dict_get (f cols) c = dict_get cols c) ->
             dict_get (_get_table_columns (on_table t f cn) t) c
             = dict_get (_get_table_columns cn t) c).
  { intros f cn Hf. rewrite columns_on_table, String.eqb_refl.
    unfold _get_table_columns. destruct (dict_get cn t); auto. }
  revert conn.
  induction its as [ | [c0 ty] rest IH]; intros conn Hn;
    cbn [structure_loop]; auto.
  simpl in Hn.
  assert (Hc : c0 <> c) by tauto.
  assert (Hr : ~ In c (keys rest)) by tauto.
  destruct (dict_get pc c0) as [pty | ].
  - destruct (negb (String.eqb ty pty)); auto.
    rewrite run_ddl_app, IH by exact Hr. simpl. apply Hstep.
    intros cols. apply get_with_type_other. exact Hc.
  - rewrite run_ddl_app, IH by exact Hr. simpl. apply Hstep.
    intros cols. apply get_with_column_other. exact Hc.
Qed.

Lemma common_loop_other (test_conn : schema) (tables : list string)
    (conn : schema) (t : string) :
  ~ In t tables ->
  dict_get (run_ddl (common_loop test_conn conn tables) conn) t
  = dict_get conn t.
Proof.
  revert conn. induction tables as [ | t0 rest IH]; intros conn Hn; simpl; auto.
  simpl in Hn. rewrite run_ddl_app, IH by tauto.
  unfold _sync_table_structure. apply structure_loop_other.
  intros E. subst t0. tauto.
Qed.

Lemma common_loop_keeps (test_conn : schema) (tables : list string)
    (conn : schema) (t c : string) :
  ~ In c (keys (_get_table_columns test_conn t)) ->
  dict_get (_get_table_columns
              (run_ddl (common_loop test_conn conn tables) conn) t) c
  = dict_get (_get_table_columns conn t) c.
Proof.
  intros Hc. revert conn.
  induction tables as [ | t0 rest IH]; intros conn; simpl; auto.
  rewrite run_ddl_app, IH. unfold _sync_table_structure.
  destruct (String.eqb t t0) eqn:E.
  - apply String.eqb_eq in E. subst t0.
    apply structure_loop_keeps. exact Hc.
  - apply String.eqb_neq in E. unfold _get_table_columns at 1 3.
    rewrite structure_loop_other by exact E. reflexivity.
Qed.

(** X15. What only the target has is not touched: a table of the target
    that the source does not have is the same after the run, and a column
    of a target table that the source table does not have keeps its
    type. *)
Theorem sync_schema_keeps_target_only (test_conn prod_conn : schema)
    (t : string) :
  mem t (_get_tables prod_conn) = true ->
  (~ In t (_get_tables test_conn) ->
   dict_get (run_ddl (sync_schema test_conn prod_conn) prod_conn) t
   = dict_get prod_conn t)
  /\ (forall c, ~ In c (keys (_get_table_columns test_conn t)) ->
      dict_get (_get_table_columns
                  (run_ddl (sync_schema test_conn prod_conn) prod_conn) t) c
      = dict_get (_get_table_columns prod_conn t) c).
Proof.
  intros Hm. rewrite mem_get_tables in Hm. unfold contains in Hm.
  destruct (dict_get prod_conn t) as [cols | ] eqn:E; [ | discriminate].
  unfold sync_schema. rewrite run_ddl_app. split.
  - intros Hn. rewrite common_loop_other.
    + rewrite run_create_calls, E. reflexivity.
    + rewrite filter_In. tauto.
  - intros c Hc. rewrite common_loop_keeps by exact Hc.
    unfold _get_table_columns. rewrite run_create_calls, E. reflexivity.
Qed.

Lemma sync_schema_keeps_target_only_witness :
  (~ In "audit" (_get_tables scenario_a_test) ->
   dict_get
     (run_ddl
        (sync_schema scenario_a_test
           (scenario_a_prod ++ [ ("audit", [("at", "date")]) ]))
        (scenario_a_prod ++ [ ("audit", [("at", "date")]) ])) "audit"
   = dict_get (scenario_a_prod ++ [ ("audit", [("at", "date")]) ]) "audit")
  /\ (forall c, ~ In c (keys (_get_table_columns scenario_a_test "audit")) ->
      dict_get
        (_get_table_columns
           (run_ddl
              (sync_schema scenario_a_test
                 (scenario_a_prod ++ [ ("audit", [("at", "date")]) ]))
              (scenario_a_prod ++ [ ("audit", [("at", "date")]) ])) "audit") c
      = dict_get
          (_get_table_columns
             (scenario_a_prod ++ [ ("audit", [("at", "date")]) ]) "audit") c).
Proof.
  apply sync_schema_keeps_target_only. reflexivity.
Defined.

Lemma structure_loop_no_create (t : string) (pc : table_columns)
    (its : list (string * string)) (t' : string) :
  ~ In (CreateTable t') (statements (structure_loop t pc its)).
Proof.
  induction its as [ | [c ty] rest IH]; cbn [structure_loop]; auto.
  destruct (dict_get pc c) as [pty | ].
  - destruct (negb (String.eqb ty pty)); auto.
    simpl. intros [H | H]; [discriminate | auto].
  - simpl. intros [H | H]; [discriminate | auto].
Qed.

Lemma common_loop_no_create (test_conn : schema) (tables : list string)
    (conn : schema) (t' : string) :
  ~ In (CreateTable t') (statements (common_loop test_conn conn tables)).
Proof.
  revert conn. induction tables as [ | t0 rest IH]; intros conn; simpl; auto.
  rewrite statements_app. intros H. apply in_app_or in H.
  destruct H as [H | H].
  - revert H. apply structure_loop_no_create.
  - revert H. apply IH.
Qed.

(** X16. [sync_schema] issues a CREATE TABLE exactly for the tables of the
    source that the target lacks: never for a table the target has, never
    for a table the source does not have. *)
Theorem creates_exactly_missing_tables (test_conn prod_conn : schema)
    (t : string) :
  In (CreateTable t) (statements (sync_schema test_conn prod_conn))
  <-> In t (_get_tables test_conn) /\ mem t (_get_tables prod_conn) = false.
Proof.
  unfold sync_schema. rewrite statements_app, create_calls_statements.
  rewrite in_app_iff. split.
  - intros [H | H].
    + apply in_map_iff in H. destruct H as (t0 & Heq & Hin).
      inversion Heq; subst. apply filter_In in Hin.
      rewrite negb_true_iff in Hin. exact Hin.
    + exfalso. revert H. apply common_loop_no_create.
  - intros [Hin Hm]. left. apply in_map. apply filter_In.
    rewrite Hm. auto.
Qed.

Lemma upper_ascii_idempotent (c : ascii) :
  upper_ascii (upper_ascii c) = upper_ascii c.
Proof. destruct c as [[] [] [] [] [] [] [] []]; reflexivity. Qed.

Lemma upper_idempotent (s : string) : upper (upper s) = upper s.
Proof.
  induction s as [ | c s IH]; simpl; auto.
  rewrite upper_ascii_idempotent, IH. reflexivity.
Qed.

(** X17. The type name that [_map_type_to_postgres] returns is in upper
    case for every tag: upper-casing it changes nothing. *)
Theorem mapped_type_is_upper_case (data_type : string) :
  upper (_map_type_to_postgres data_type) = _map_type_to_postgres data_type.
Proof.
  unfold _map_type_to_postgres.
  destruct (String.eqb data_type "character varying"); [reflexivity | ].
  destruct (String.eqb data_type "integer"); [reflexivity | ].
  destruct (String.eqb data_type "boolean"); [reflexivity | ].
  apply upper_idempotent.
Qed.

(** ** The schema run as a difference of two snapshots *)

Lemma flat_map_ext_in (A B : Type) (f g : A -> list B) (l : list A) :
  (forall x, In x l -> f x = g x) -> flat_map f l = flat_map g l.
Proof.
  induction l as [ | x l IH]; intros H; simpl; auto.
  rewrite (H x) by (simpl; auto). f_equal. apply IH.
  intros y Hy. apply H. simpl. auto.
Qed.

Lemma sync_table_structure_columns (test_conn conn conn' : schema)
    (t : string) :
  dict_get conn' t = dict_get conn t ->
  _sync_table_structure test_conn conn' t
  = _sync_table_structure test_conn conn t.
Proof.
  intros H. unfold _sync_table_structure, _get_table_columns.
  rewrite H. reflexivity.
Qed.

Lemma common_loop_flat (test_conn : schema) (tables : list string)
    (conn : schema) :
  NoDup tables ->
  common_loop test_conn conn tables
  = flat_map (_sync_table_structure test_conn conn) tables.
Proof.
  revert conn. induction tables as [ | t0 rest IH]; intros conn Hnd; simpl; auto.
  inversion Hnd as [ | ? ? Hn Hrest]; subst.
  rewrite IH by exact Hrest. f_equal.
  apply flat_map_ext_in. intros t Ht.
  apply sync_table_structure_columns.
  unfold _sync_table_structure. apply structure_loop_other.
  intros E. subst t. tauto.
Qed.

Lemma sync_schema_flat (test_conn prod_conn : schema) :
  NoDup (_get_tables test_conn) ->
  sync_schema test_conn prod_conn
  = create_calls
      (filter (fun t => negb (mem t (_get_tables prod_conn)))
              (_get_tables test_conn))
    ++ flat_map (_sync_table_structure test_conn prod_conn)
         (filter (fun t => mem t (_get_tables prod_conn))
                 (_get_tables test_conn)).
Proof.
  intros Hnd. unfold sync_schema. f_equal.
  rewrite common_loop_flat by (apply NoDup_filter; exact Hnd).
  apply flat_map_ext_in. intros t Ht.
  apply filter_In in Ht. destruct Ht as [_ Hm].
  rewrite mem_get_tables in Hm. unfold contains in Hm.
  apply sync_table_structure_columns. rewrite run_create_calls.
  destruct (dict_get prod_conn t); [reflexivity | discriminate].
Qed.

(** X18. When the table names of the source are pairwise different, the
    calls of [sync_schema] are those computed from the two catalogs as they
    are before the run: the creations of the missing tables, then for each
    common table, in the order of the source, the column statements against
    the target table as it was; reading the live catalog between statements
    changes nothing. *)
Theorem sync_schema_reads_initial_catalog (test_conn prod_conn : schema) :
  NoDup (_get_tables test_conn) ->
  sync_schema test_conn prod_conn
  = create_calls
      (filter (fun t => negb (mem t (_get_tables prod_conn)))
              (_get_tables test_conn))
    ++ flat_map (_sync_table_structure test_conn prod_conn)
         (filter (fun t => mem t (_get_tables prod_conn))
                 (_get_tables test_conn)).
Proof. apply sync_schema_flat. Qed.

Lemma sync_schema_reads_initial_catalog_witness :
  sync_schema scenario_a_test scenario_a_prod
  = create_calls
      (filter (fun t => negb (mem t (_get_tables scenario_a_prod)))
              (_get_tables scenario_a_test))
    ++ flat_map (_sync_table_structure scenario_a_test scenario_a_prod)
         (filter (fun t => mem t (_get_tables scenario_a_prod))
                 (_get_tables scenario_a_test)).
Proof.
  apply sync_schema_reads_initial_catalog.
  repeat constructor; simpl; intuition discriminate.
Defined.

Lemma statements_flat_map (A : Type) (f : A -> list call) (l : list A)
    (s : statement) :
  In s (statements (flat_map f l))
  <-> exists x, In x l /\ In s (statements (f x)).
Proof.
  induction l as [ | x l IH]; simpl.
  - split; [tauto | intros (x & [] & _)].
  - rewrite statements_app, in_app_iff, IH. split.
    + intros [H | (y & Hy & H)]; eauto.
    + intros (y & [<- | Hy] & H); eauto.
Qed.

Lemma structure_loop_add (t : string) (pc : table_columns)
    (its : list (string * string)) (t' c ty : string) :
  In (AddColumn t' c ty) (statements (structure_loop t pc its))
  <-> t' = t /\ In (c, ty) its /\ dict_get pc c = None.
Proof.
  induction its as [ | [c0 ty0] rest IH]; cbn [structure_loop].
  - simpl. tauto.
  - destruct (dict_get pc c0) as [pty | ] eqn:E.
    + assert (Hrest : In (AddColumn t' c ty)
                         (statements (structure_loop t pc rest))
                      <-> t' = t /\ In (c, ty) ((c0, ty0) :: rest)
                          /\ dict_get pc c = None).
      { rewrite IH. simpl. split; [tauto | ].
        intros (H1 & [H2 | H2] & H3); [ | tauto].
        inversion H2; subst. congruence. }
      destruct (negb (String.eqb ty0 pty)); auto.
      simpl. rewrite <- Hrest. split; [ | tauto].
      intros [H | H]; [discriminate | exact H].
    + simpl. rewrite IH. split.
      * intros [H | H]; [inversion H; subst; auto | tauto].
      * intros (H1 & [H2 | H2] & H3); [ | tauto].
        inversion H2; subst. auto.
Qed.

Lemma structure_loop_alter (t : string) (pc : table_columns)
    (its : list (string * string)) (t' c ty : string) :
  In (AlterColumnType t' c ty) (statements (structure_loop t pc its))
  <-> t' = t /\ In (c, ty) its
      /\ exists pty, dict_get pc c = Some pty /\ pty <> ty.
Proof.
  induction its as [ | [c0 ty0] rest IH]; cbn [structure_loop].
  - simpl. tauto.
  - destruct (dict_get pc c0) as [pty | ] eqn:E.
    + destruct (String.eqb ty0 pty) eqn:Ety; cbn [negb].
      * apply String.eqb_eq in Ety. subst pty.
        rewrite IH. simpl. split; [tauto | ].
        intros (H1 & [H2 | H2] & H3); [ | tauto].
        inversion H2; subst. destruct H3 as (pty & Hp & Hne). congruence.
      * apply String.eqb_neq in Ety. simpl. rewrite IH. split.
        -- intros [H | H]; [ | tauto].
           inversion H; subst. repeat split; auto.
           exists pty. split; auto.
        -- intros (H1 & [H2 | H2] & H3); [ | tauto].
           inversion H2; subst. auto.
    + simpl. rewrite IH. split.
      * intros [H | H]; [discriminate | tauto].
      * intros (H1 & [H2 | H2] & H3); [ | tauto].
        inversion H2; subst. destruct H3 as (pty & Hp & _). congruence.
Qed.

(** X19. With pairwise different source table names, [sync_schema] adds a
    column exactly when the table is on both sides, the source table has
    the column with that type and the target table does not have the
    column; it retypes a column exactly when the table is on both sides,
    the source table has the column with that type and the target table has
    it with another type. *)
Theorem sync_schema_column_changes (test_conn prod_conn : schema)
    (t c ty : string) :
  NoDup (_get_tables test_conn) ->
  (In (AddColumn t c ty) (statements (sync_schema test_conn prod_conn))
   <-> In t (_get_tables test_conn)
       /\ mem t (_get_tables prod_conn) = true
       /\ In (c, ty) (items (_get_table_columns test_conn t))
       /\ dict_get (_get_table_columns prod_conn t) c = None)
  /\ (In (AlterColumnType t c ty)
         (statements (sync_schema test_conn prod_conn))
      <-> In t (_get_tables test_conn)
          /\ mem t (_get_tables prod_conn) = true
          /\ In (c, ty) (items (_get_table_columns test_conn t))
          /\ exists pty, dict_get (_get_table_columns prod_conn t) c = Some pty
                         /\ pty <> ty).
Proof.
  intros Hnd. rewrite sync_schema_flat by exact Hnd.
  rewrite statements_app, create_calls_statements.
  split.
  - rewrite in_app_iff, statements_flat_map. split.
    + intros [H | (t0 & Ht0 & H)].
      * apply in_map_iff in H. destruct H as (x & Hx & _). discriminate.
      * apply structure_loop_add in H. destruct H as (-> & H2 & H3).
        apply filter_In in Ht0. tauto.
    + intros (H1 & H2 & H3 & H4). right. exists t. split.
      * apply filter_In. auto.
      * apply structure_loop_add. auto.
  - rewrite in_app_iff, statements_flat_map. split.
    + intros [H | (t0 & Ht0 & H)].
      * apply in_map_iff in H. destruct H as (x & Hx & _). discriminate.
      * apply structure_loop_alter in H. destruct H as (-> & H2 & H3).
        apply filter_In in Ht0. tauto.
    + intros (H1 & H2 & H3 & H4). right. exists t. split.
      * apply filter_In. auto.
      * apply structure_loop_alter. auto.
Qed.

Lemma sync_schema_column_changes_witness :
  (In (AddColumn "users" "email" "character varying")
      (statements (sync_schema scenario_a_test
                     [ ("users", [("id", "bigint")]) ]))
   <-> In "users" (_get_tables scenario_a_test)
       /\ mem "users" (_get_tables [ ("users", [("id", "bigint")]) ]) = true
       /\ In ("email", "character varying")
             (items (_get_table_columns scenario_a_test "users"))
       /\ dict_get (_get_table_columns [ ("users", [("id", "bigint")]) ]
                      "users") "email" = None)
  /\ (In (AlterColumnType "users" "email" "character varying")
         (statements (sync_schema scenario_a_test
                        [ ("users", [("id", "bigint")]) ]))
      <-> In "users" (_get_tables scenario_a_test)
          /\ mem "users" (_get_tables [ ("users", [("id", "bigint")]) ]) = true
          /\ In ("email", "character varying")
                (items (_get_table_columns scenario_a_test "users"))
          /\ exists pty,
               dict_get (_get_table_columns [ ("users", [("id", "bigint")]) ]
                           "users") "email" = Some pty
               /\ pty <> "character varying").
Proof.
  apply sync_schema_column_changes.
  repeat constructor; simpl; intuition discriminate.
Defined.

(** X20. [calculate_inserts] puts a source record in the insert-set if and
    only if no target record carries an identity equal to the record's
    identity value ([r.get('id')]). *)
Theorem calculate_inserts_spec (test_records prod_records : list record)
    (r : record) :
  In r (calculate_inserts test_records prod_records)
  <-> In r test_records
      /\ forall t, In t prod_records -> ~ has_identity t (get_id r).
Proof.
  rewrite in_calculate_inserts, matched_none. tauto.
Qed.



